(** * pem: extraction of PEM objects from text

    A shallow embedding of [pem/_core.py]: the classes [_Base],
    [Certificate], [Key], [RSAPrivateKey], [DHParameters], the registry
    [_PEM_TO_CLASS], the pattern [_PEM_RE] and the functions [parse] and
    [parse_file], together with the part of Python's [re] and [str]
    machinery these rely on.

    Text is a [string]: a sequence of characters.  All characters the
    pattern names are ASCII; the dot of the pattern accepts every
    character.

    The module [pem.twisted], which holds the classifier of key,
    certificate and chain, is not among the sources: its behaviour is
    modelled from the specification (section _The role classifier_). *)

From Stdlib Require Import String Ascii List Bool Arith Lia Permutation.
Import ListNotations.

Local Open Scope list_scope.
Local Open Scope string_scope.

(** ** Text helpers *)

Module Text.

(** [strip_prefix p s] is [Some t] when [s = p ++ t]. *)
Fixpoint strip_prefix (p s : string) : option string :=
  match p with
  | EmptyString => Some s
  | String a p' =>
      match s with
      | EmptyString => None
      | String b s' => if Ascii.eqb a b then strip_prefix p' s' else None
      end
  end.

(** [all_chars f s]: every character of [s] satisfies [f]. *)
Fixpoint all_chars (f : ascii -> bool) (s : string) : bool :=
  match s with
  | EmptyString => true
  | String c s' => f c && all_chars f s'
  end.

Definition is_dash (c : ascii) : bool := Ascii.eqb c "-".

(** No hyphen anywhere in [s]. *)
Definition dash_free (s : string) : bool := all_chars (fun c => negb (is_dash c)) s.

Definition nonempty (s : string) : bool :=
  match s with EmptyString => false | String _ _ => true end.

End Text.

Import Text.

(** ** The fragment of [re] used by [_PEM_RE]

    The pattern is compiled with [re.DOTALL], without [re.VERBOSE]: every
    character other than the metacharacters stands for itself, line
    breaks of the pattern text included. *)

Module Re.

Inductive regex : Type :=
| Lit (l : string)          (* a run of literal characters *)
| Seq (r1 r2 : regex)       (* r1 r2 *)
| Alt (r1 r2 : regex)       (* r1|r2 : r1 is tried first *)
| Group1 (r : regex)        (* (r) : the capturing group number 1 *)
| Backref1                  (* \1 *)
| AnyPlusLazy               (* .+? : one or more characters, fewest first *)
| Opt (r : regex).          (* r? : greedy, r is tried before skipping it *)

(** One way of matching a pattern at the head of a text: the characters
    taken, the text left, and what group 1 holds afterwards. *)
Record thread : Type := Thread {
  taken : string;
  rest : string;
  captured : option string
}.

Definition extend (m : string) (t : thread) : thread :=
  Thread (m ++ taken t) (rest t) (captured t).

(** Every non-empty prefix of [s] with the matching suffix, shortest first. *)
Fixpoint any_plus_lazy (s : string) : list (string * string) :=
  match s with
  | EmptyString => []
  | String c s' =>
      (String c EmptyString, s')
        :: map (fun ms => (String c (fst ms), snd ms)) (any_plus_lazy s')
  end.

(** [run r g s] lists every way [r] matches at the head of [s] when group 1
    holds [g], in the order in which a backtracking matcher tries them.  *)
Fixpoint run (r : regex) (g : option string) (s : string) : list thread :=
  match r with
  | Lit l =>
      match strip_prefix l s with
      | Some s' => [Thread l s' g]
      | None => []
      end
  | Seq r1 r2 =>
      flat_map (fun t1 => map (extend (taken t1)) (run r2 (captured t1) (rest t1)))
               (run r1 g s)
  | Alt r1 r2 => (run r1 g s ++ run r2 g s)%list
  | Group1 r1 =>
      map (fun t => Thread (taken t) (rest t) (Some (taken t))) (run r1 g s)
  | Backref1 =>
      match g with
      | Some l =>
          match strip_prefix l s with
          | Some s' => [Thread l s' g]
          | None => []
          end
      | None => []
      end
  | AnyPlusLazy => map (fun ms => Thread (fst ms) (snd ms) g) (any_plus_lazy s)
  | Opt r1 => (run r1 g s ++ [Thread EmptyString s g])%list
  end.

(** A match object: [group(0)] and [group(1)]. *)
Record re_match : Type := ReMatch {
  group0 : string;
  group1 : option string
}.

(** The match starting exactly at the head of [s], if any: the first
    thread wins. *)
Definition match_here (r : regex) (s : string) : option re_match :=
  match run r None s with
  | t :: _ => Some (ReMatch (taken t) (captured t))
  | [] => None
  end.

(** [scan r skip s]: the matches found from left to right in [s], whose
    first [skip] characters belong to the previous match.  The search tries
    each position in turn; after a match it resumes where the match ended
    (one character further after a match of no character, which
    [_PEM_RE] never yields). *)
Fixpoint scan (r : regex) (skip : nat) (s : string) {struct s} : list re_match :=
  match s with
  | EmptyString =>
      match skip with
      | O => match match_here r EmptyString with Some m => [m] | None => [] end
      | S _ => []
      end
  | String _ s' =>
      match skip with
      | S k => scan r k s'
      | O =>
          match match_here r s with
          | Some m => m :: scan r (pred (String.length (group0 m))) s'
          | None => scan r 0 s'
          end
      end
  end.

(** [r.finditer(s)] *)
Definition finditer (r : regex) (s : string) : list re_match := scan r 0 s.

(** ['|'.join(keys)] as a pattern: the alternatives in order. *)
Fixpoint alternation (keys : list string) : regex :=
  match keys with
  | [] => Lit EmptyString
  | [k] => Lit k
  | k :: ks => Alt (Lit k) (alternation ks)
  end.

End Re.

Import Re.

(** ** Objects and the interpreter state

    Instances are heap objects: each constructor call yields an object
    with a fresh identity.  The state threaded through the program is the
    next free identity. *)

Inductive class : Type := Certificate | Key | RSAPrivateKey | DHParameters.

Definition class_eqb (a b : class) : bool :=
  match a, b with
  | Certificate, Certificate | Key, Key
  | RSAPrivateKey, RSAPrivateKey | DHParameters, DHParameters => true
  | _, _ => false
  end.

(** [cls.__name__] *)
Definition __name__ (c : class) : string :=
  match c with
  | Certificate => "Certificate"
  | Key => "Key"
  | RSAPrivateKey => "RSAPrivateKey"
  | DHParameters => "DHParameters"
  end.

(** [issubclass c Key]: [class RSAPrivateKey(Key)]. *)
Definition is_key_class (c : class) : bool :=
  match c with Key | RSAPrivateKey => true | _ => false end.

Record object : Type := Object {
  id : nat;               (* identity of the instance *)
  __class__ : class;
  pem_str : string
}.

Inductive exn : Type :=
| KeyError (key : option string)
| IndexError
| ValueError (msg : string)
| IOError (file_name : string).

(** Computations: they read and advance the next free identity, and
    either raise or return. *)
Definition Py (A : Type) : Type := nat -> exn + (A * nat).

Definition ret {A} (a : A) : Py A := fun n => inr (a, n).
Definition raise {A} (e : exn) : Py A := fun _ => inl e.
Definition bind {A B} (m : Py A) (f : A -> Py B) : Py B :=
  fun n => match m n with
           | inl e => inl e
           | inr (a, n') => f a n'
           end.

Notation "x <- m ;; k" := (bind m (fun x => k))
  (at level 61, m at next level, right associativity).

Fixpoint mapM {A B} (f : A -> Py B) (l : list A) : Py (list B) :=
  match l with
  | [] => ret []
  | a :: l' => b <- f a ;; bs <- mapM f l' ;; ret (b :: bs)
  end.

(** [cls(_pem_str)]: allocation followed by [_Base.__init__]. *)
Definition new (cls : class) (_pem_str : string) : Py object :=
  fun n => inr (Object n cls _pem_str, S n).

(** [_Base.__str__] *)
Definition __str__ (self : object) : string := pem_str self.

(** [_Base] defines neither [__eq__] nor [__hash__]: both come from
    [object], which compares and hashes instances by identity. *)
Definition __eq__ (a b : object) : bool := Nat.eqb (id a) (id b).
Definition __hash__ (a : object) : nat := id a.

(** ** The registry and the pattern *)

Definition _PEM_TO_CLASS : list (string * class) :=
  [ ("CERTIFICATE", Certificate);
    ("RSA PRIVATE KEY", RSAPrivateKey);
    ("DH PARAMETERS", DHParameters) ].

Definition keys {V} (d : list (string * V)) : list string := map fst d.

(** [d[k]], raising [KeyError] for a missing key. *)
Fixpoint getitem {V} (d : list (string * V)) (k : option string) : exn + V :=
  match d with
  | [] => inl (KeyError k)
  | (k', v) :: d' =>
      match k with
      | Some s => if String.eqb k' s then inr v else getitem d' k
      | None => getitem d' k
      end
  end.

Definition LF : string := String (ascii_of_nat 10) EmptyString.
Definition CR : string := String (ascii_of_nat 13) EmptyString.
Definition CRLF : string := CR ++ LF.

(** The pattern text with its placeholder filled in by [labels]:
    [-----BEGIN (<labels>)-----\n.+?\n-----END \1-----\n?] *)
Definition pem_pattern (labels : list string) : regex :=
  Seq (Lit "-----BEGIN ")
 (Seq (Group1 (alternation labels))
 (Seq (Lit ("-----" ++ LF))
 (Seq AnyPlusLazy
 (Seq (Lit (LF ++ "-----END "))
 (Seq Backref1
 (Seq (Lit "-----")
      (Opt (Lit LF)))))))).

Definition _PEM_RE : regex := pem_pattern (keys _PEM_TO_CLASS).

(** ** [parse] and [parse_file] *)

Definition lift {A} (r : exn + A) : Py A :=
  match r with inl e => raise e | inr a => ret a end.

Definition parse (pem_str : string) : Py (list object) :=
  mapM (fun m => cls <- lift (getitem _PEM_TO_CLASS (group1 m)) ;;
                 new cls (group0 m))
       (finditer _PEM_RE pem_str).

(** The files that can be opened and read, with their contents once
    decoded (undecodable bytes are dropped by [errors='ignore']).  Every
    other file is rendered as one that raises [IOError]; the other ways in
    which opening or reading can fail are not told apart. *)
Definition filesystem : Type := string -> option string.

Definition parse_file (fs : filesystem) (file_name : string) : Py (list object) :=
  match fs file_name with
  | Some contents => parse contents
  | None => raise (IOError file_name)
  end.

(** ** Well-formed PEM blocks *)

(** The text of one block with end-of-line [eol]: the BEGIN line, the body,
    the END line, and the final line terminator when [trailing]. *)
Definition pem_block (eol label body : string) (trailing : bool) : string :=
  "-----BEGIN " ++ label ++ "-----" ++ eol
    ++ body ++ eol
    ++ "-----END " ++ label ++ "-----" ++ (if trailing then eol else "").

(** A body is well formed when it is not empty and holds no hyphen: base64
    text (letters, digits, [+], [/], [=]) broken into lines is of this kind,
    whatever its line terminators. *)
Definition wf_body (body : string) : bool := nonempty body && dash_free body.

(** A label is well formed when it holds no hyphen. *)
Definition wf_label (label : string) : bool := dash_free label.

Definition registered (label : string) : Prop := In label (keys _PEM_TO_CLASS).

(** ** Sequences of blocks *)

Record block : Type := Block {
  label : string;
  body : string;
  trailing : bool
}.

(** Blocks whose lines end in a line feed. *)
Definition block_text (b : block) : string :=
  pem_block LF (label b) (body b) (trailing b).

Definition wf_block (b : block) : Prop :=
  registered (label b) /\ wf_body (body b) = true.

(** [''.join(l)] *)
Definition join (l : list string) : string := fold_right append "" l.

(** The variant each registered label stands for, as the specification
    lists them; [parse] itself looks the class up in [_PEM_TO_CLASS]. *)
Definition variant_of_label (l : string) : option class :=
  if String.eqb l "CERTIFICATE" then Some Certificate
  else if String.eqb l "RSA PRIVATE KEY" then Some RSAPrivateKey
  else if String.eqb l "DH PARAMETERS" then Some DHParameters
  else None.

(** The match object expected for a block. *)
Definition match_of_block (b : block) : re_match :=
  ReMatch (block_text b) (Some (label b)).

(** The part of [_PEM_RE] that follows [.+?]. *)
Definition end_line : regex :=
  Seq (Lit (LF ++ "-----END "))
 (Seq Backref1
 (Seq (Lit "-----")
      (Opt (Lit LF)))).

(** The expression the comprehension of [parse] evaluates for one match:
    [_PEM_TO_CLASS[match.group(1)](match.group(0))]. *)
Definition make (m : re_match) : Py object :=
  cls <- lift (getitem _PEM_TO_CLASS (group1 m)) ;; new cls (group0 m).

(** A recognized block occurs somewhere in [s]: a BEGIN line with a
    registered label, at least one character, and an END line with the
    same label. *)
Definition contains_block (s : string) : Prop :=
  exists pre l b post,
    registered l /\ b <> ""
    /\ s = pre ++ "-----BEGIN " ++ l ++ "-----" ++ LF
             ++ b ++ LF ++ "-----END " ++ l ++ "-----" ++ post.

(** A match object that holds the text of a block and its label. *)
Definition block_match (m : re_match) : Prop :=
  exists l b tr,
    registered l /\ b <> ""
    /\ group0 m = pem_block LF l b tr /\ group1 m = Some l.

(** ** Where a match can start *)

Definition has_prefix (p s : string) : bool :=
  match strip_prefix p s with Some _ => true | None => false end.

(** [s] starts with the BEGIN line of a registered label. *)
Definition begins (s : string) : bool :=
  existsb (fun l => has_prefix ("-----BEGIN " ++ l ++ "-----" ++ LF) s)
          (keys _PEM_TO_CLASS).

(** No suffix of [p ++ r] that starts inside [p] starts with such a line. *)
Fixpoint no_begin_in (p r : string) : Prop :=
  match p with
  | EmptyString => True
  | String c p' => begins (String c (p' ++ r)) = false /\ no_begin_in p' r
  end.

(** ** [repr] of a text, [str.format], and [_Base.__repr__]

    [repr] is the one of Python 3 for [str], on the characters below
    U+0100. *)

Module Str.

Definition backslash : ascii := ascii_of_nat 92.
Definition squote : ascii := ascii_of_nat 39.
Definition dquote : ascii := ascii_of_nat 34.
Definition tab : ascii := ascii_of_nat 9.
Definition lf : ascii := ascii_of_nat 10.
Definition cr : ascii := ascii_of_nat 13.

Fixpoint contains_char (c : ascii) (s : string) : bool :=
  match s with
  | EmptyString => false
  | String a s' => Ascii.eqb a c || contains_char c s'
  end.

Definition hex_digit (n : nat) : ascii :=
  nth n ["0"; "1"; "2"; "3"; "4"; "5"; "6"; "7"; "8"; "9";
         "a"; "b"; "c"; "d"; "e"; "f"]%char "0"%char.

(** [\xhh] *)
Definition hex_escape (c : ascii) : string :=
  let n := nat_of_ascii c in
  String backslash
    (String "x" (String (hex_digit (n / 16)) (String (hex_digit (n mod 16)) EmptyString))).

(** Printable characters among the first 256 code points: the ASCII
    graphic characters and the space, and the Latin-1 characters from
    U+00A1 on, the soft hyphen U+00AD apart. *)
Definition is_printable (c : ascii) : bool :=
  let n := nat_of_ascii c in
  (((32 <=? n) && (n <? 127)) || ((161 <=? n) && negb (n =? 173)))%nat.

(** How [repr] writes one character inside the quotes [quote]. *)
Definition repr_char (quote c : ascii) : string :=
  if Ascii.eqb c quote || Ascii.eqb c backslash then
    String backslash (String c EmptyString)
  else if Ascii.eqb c tab then String backslash "t"
  else if Ascii.eqb c lf then String backslash "n"
  else if Ascii.eqb c cr then String backslash "r"
  else if is_printable c then String c EmptyString
  else hex_escape c.

Fixpoint repr_chars (quote : ascii) (s : string) : string :=
  match s with
  | EmptyString => EmptyString
  | String c s' => repr_char quote c ++ repr_chars quote s'
  end.

(** Single quotes, unless the text holds a single quote and no double
    quote. *)
Definition repr_quote (s : string) : ascii :=
  if contains_char squote s && negb (contains_char dquote s) then dquote
  else squote.

(** [repr(s)] for a text [s] *)
Definition repr (s : string) : string :=
  let q := repr_quote s in
  String q (repr_chars q s ++ String q EmptyString).

Definition digit_value (c : ascii) : option nat :=
  let n := nat_of_ascii c in
  if ((48 <=? n) && (n <=? 57))%nat then Some (n - 48) else None.

(** [template.format(a0, a1, ...)] for text arguments and templates whose
    replacement fields are [{i}] and [{i!r}] with a one-digit index;
    doubled braces stand for a brace. *)
Fixpoint format (template : string) (args : list string) : exn + string :=
  let emit (piece : exn + string) (k : exn + string) : exn + string :=
    match piece, k with
    | inl e, _ => inl e
    | _, inl e => inl e
    | inr a, inr b => inr (a ++ b)
    end in
  let arg (d : ascii) : exn + string :=
    match digit_value d with
    | None => inl (ValueError "unsupported replacement field")
    | Some i =>
        match nth_error args i with
        | Some a => inr a
        | None => inl IndexError
        end
    end in
  match template with
  | EmptyString => inr EmptyString
  | String c t1 =>
      if Ascii.eqb c "{" then
        match t1 with
        | String d t2 =>
            if Ascii.eqb d "{" then emit (inr "{") (format t2 args)
            else
              match t2 with
              | String e t3 =>
                  if Ascii.eqb e "}" then emit (arg d) (format t3 args)
                  else if Ascii.eqb e "!" then
                    match t3 with
                    | String f (String h t5) =>
                        if Ascii.eqb f "r" && Ascii.eqb h "}" then
                          emit (match arg d with
                                | inl x => inl x
                                | inr a => inr (repr a)
                                end)
                               (format t5 args)
                        else inl (ValueError "unsupported replacement field")
                    | _ => inl (ValueError "unsupported replacement field")
                    end
                  else inl (ValueError "unsupported replacement field")
              | EmptyString => inl (ValueError "expected '}' before end of string")
              end
        | EmptyString => inl (ValueError "Single '{' encountered in format string")
        end
      else if Ascii.eqb c "}" then
        match t1 with
        | String d t2 =>
            if Ascii.eqb d "}" then emit (inr "}") (format t2 args)
            else inl (ValueError "Single '}' encountered in format string")
        | EmptyString => inl (ValueError "Single '}' encountered in format string")
        end
      else emit (inr (String c EmptyString)) (format t1 args)
  end.

(** Reading back what [repr_chars] wrote, up to the closing quote. *)
Definition hex_value (c : ascii) : nat :=
  let n := nat_of_ascii c in
  if ((48 <=? n) && (n <=? 57))%nat then n - 48 else n - 87.

Fixpoint unescape (quote : ascii) (s : string) : string :=
  match s with
  | EmptyString => EmptyString
  | String c s1 =>
      if Ascii.eqb c quote then EmptyString
      else if Ascii.eqb c backslash then
        match s1 with
        | EmptyString => EmptyString
        | String e s2 =>
            if Ascii.eqb e "x" then
              match s2 with
              | String h1 (String h2 s3) =>
                  String (ascii_of_nat (16 * hex_value h1 + hex_value h2))
                         (unescape quote s3)
              | _ => EmptyString
              end
            else if Ascii.eqb e "t" then String tab (unescape quote s2)
            else if Ascii.eqb e "n" then String lf (unescape quote s2)
            else if Ascii.eqb e "r" then String cr (unescape quote s2)
            else String e (unescape quote s2)
        end
      else String c (unescape quote s1)
  end.

(** The text a [repr] stands for. *)
Definition unrepr (r : string) : string :=
  match r with
  | EmptyString => EmptyString
  | String q r' => unescape q r'
  end.

End Str.

(** [_Base.__repr__] *)
Definition __repr__ (self : object) : exn + string :=
  Str.format "<{0}(pem_str={1!r})>" [__name__ (__class__ self); pem_str self].

(** ** The role classifier *)

Section Classifier.

(** The comparison of the public key of a certificate with the one that
    belongs to a private key, and the content fingerprint of a key: both
    are supplied by the cryptographic library. *)
Variable matches : object -> object -> bool.
Variable fingerprint : object -> string.

(** Modelled from the spec: the error taxonomy of the classifier, which
    lives in the module [pem.twisted], absent from the sources at hand. *)
Inductive classify_error : Type :=
| NoKey
| MultipleKeys
| NoCertificate
| NoMatchingCertificate (message : string).

(** Modelled from the spec: the result of a classification, the triple of
    key, leaf certificate and chain ([pem.twisted] is absent). *)
Record ClassificationResult : Type := {
  key : object;
  certificate : object;
  chain : list object
}.

(** Modelled from the spec: an object is of a private-key variant when its
    class is [Key] or a refinement of it ([pem.twisted] is absent). *)
Definition is_private_key (o : object) : bool := is_key_class (__class__ o).

(** Modelled from the spec: an object is of kind Certificate
    ([pem.twisted] is absent). *)
Definition is_certificate (o : object) : bool :=
  class_eqb (__class__ o) Certificate.

(** Modelled from the spec: the match step of the classifier, absent from
    the sources.  The first certificate in input order that matches the
    key is the leaf; the others, in their input order, are the chain. *)
Fixpoint select_leaf (k : object) (certs : list object)
  : option (object * list object) :=
  match certs with
  | [] => None
  | c :: cs =>
      if matches k c then Some (c, cs)
      else match select_leaf k cs with
           | Some (leaf, others) => Some (leaf, c :: others)
           | None => None
           end
  end.

(** Modelled from the spec: [classify], absent from the sources (it is
    [certificateOptionsFromPEMs] of [pem.twisted]).  Four checks in a row,
    the first failure ends the classification: exactly one private key, at
    least one certificate, a certificate that matches the key, and the
    chain made of the other certificates. *)
Definition classify (objects : list object)
  : classify_error + ClassificationResult :=
  match filter is_private_key objects with
  | [] => inl NoKey
  | _ :: _ :: _ => inl MultipleKeys
  | [k] =>
      match filter is_certificate objects with
      | [] => inl NoCertificate
      | certs =>
          match select_leaf k certs with
          | None =>
              inl (NoMatchingCertificate
                     ("No certificate matching " ++ fingerprint k ++ " found."))
          | Some (leaf, others) =>
              inr {| key := k; certificate := leaf; chain := others |}
          end
      end
  end.

(** Modelled from the spec: [classify_from_sources], absent from the
    sources (it is [certificateOptionsFromFiles] of [pem.twisted]): every
    source is read with [parse_file], the objects are put end to end in the
    order of the sources, and classified. *)
Definition classify_from_sources (fs : filesystem) (locators : list string)
  : Py (classify_error + ClassificationResult) :=
  per_source <- mapM (parse_file fs) locators ;;
  ret (classify (concat per_source)).

End Classifier.

(** [needle] occurs in [text]. *)
Definition occurs_in (needle text : string) : Prop :=
  exists before after, text = before ++ needle ++ after.

(** ** Sample objects and sources *)

Definition sample_key : object := Object 0 RSAPrivateKey "key".
Definition sample_leaf : object := Object 1 Certificate "leaf".
Definition sample_ca1 : object := Object 2 Certificate "ca1".
Definition sample_ca2 : object := Object 3 Certificate "ca2".

Definition no_match (k c : object) : bool := false.
Definition sample_fingerprint (k : object) : string := "a94a8fe5ccb19ba6".

Definition sample_fs : filesystem :=
  fun name =>
    if String.eqb name "key.pem" then Some (pem_block LF "RSA PRIVATE KEY" "MIIB" true)
    else if String.eqb name "chain.pem" then Some (pem_block LF "CERTIFICATE" "MIIC" true)
    else None.

(** ** Vocabulary for the properties of [parse] *)

(** [s] without its first [k] characters. *)
Fixpoint drop (k : nat) (s : string) : string :=
  match k, s with
  | O, _ => s
  | S _, EmptyString => EmptyString
  | S k', String _ s' => drop k' s'
  end.

(** Texts, each followed by the stretch of input up to the next one, put
    end to end. *)
Definition weave (l : list (string * string)) : string :=
  join (map (fun p => fst p ++ snd p) l).

(** The object [make] builds from a match: its text is [group(0)] and its
    class is the entry of the registry under [group(1)]. *)
Definition made (m : re_match) (o : object) : Prop :=
  pem_str o = group0 m
  /\ getitem _PEM_TO_CLASS (group1 m) = inr (__class__ o).

(** A well-formed block followed by hyphen-free text; a block that lacks
    its final line feed is not followed by one. *)
Definition wf_item (bg : block * string) : Prop :=
  wf_block (fst bg)
  /\ dash_free (snd bg) = true
  /\ (trailing (fst bg) = false -> strip_prefix LF (snd bg) = None).

Definition item_text (bg : block * string) : string :=
  block_text (fst bg) ++ snd bg.

(** The END line of [l] starts at none of the places of [body] past the
    first one. *)
Definition first_end_line (l body : string) : Prop :=
  forall a c,
    body = a ++ c -> a <> "" -> c <> "" ->
    strip_prefix (LF ++ "-----END " ++ l ++ "-----")
                 (c ++ LF ++ "-----END " ++ l ++ "-----") = None.

(** No suffix of [p ++ r] that starts inside [p] starts with a line feed
    and the opening of an END line. *)
Fixpoint no_end_in (p r : string) : Prop :=
  match p with
  | EmptyString => True
  | String c p' =>
      has_prefix (LF ++ "-----END ") (String c (p' ++ r)) = false
      /\ no_end_in p' r
  end.

(** A BEGIN line of [l1], a body, and an END line of [l2]. *)
Definition mixed_block (l1 l2 body : string) (trailing : bool) : string :=
  "-----BEGIN " ++ l1 ++ "-----" ++ LF
    ++ body ++ LF
    ++ "-----END " ++ l2 ++ "-----" ++ (if trailing then LF else "").

(** The END line of the label held by group 1 is accepted at no suffix of
    [p ++ r] that starts inside [p]. *)
Fixpoint no_end_line_in (g : option string) (p r : string) : Prop :=
  match p with
  | EmptyString => True
  | String c p' =>
      run end_line g (String c (p' ++ r)) = [] /\ no_end_line_in g p' r
  end.

(** A BEGIN line and a body with no END line after them. *)
Definition truncated_block (l body : string) : string :=
  "-----BEGIN " ++ l ++ "-----" ++ LF ++ body.

(** Blocks whose lines end in a carriage return and a line feed. *)
Definition block_text_crlf (b : block) : string :=
  pem_block CRLF (label b) (body b) (trailing b).


(** * Properties *)

(** ** Text *)

Lemma append_assoc (a b c : string) : (a ++ b) ++ c = a ++ b ++ c.
Proof. induction a as [|x a IH]; simpl; [reflexivity | now rewrite IH]. Qed.

Lemma append_nil_r (a : string) : a ++ "" = a.
Proof. induction a as [|x a IH]; simpl; [reflexivity | now rewrite IH]. Qed.

Lemma strip_prefix_app (p s : string) : strip_prefix p (p ++ s) = Some s.
Proof.
  induction p as [|a p IH]; simpl; [reflexivity|].
  now rewrite Ascii.eqb_refl.
Qed.

Lemma strip_prefix_Some (p s t : string) :
  strip_prefix p s = Some t -> s = p ++ t.
Proof.
  revert s; induction p as [|a p IH]; simpl; intros s H.
  - now inversion H.
  - destruct s as [|b s]; [discriminate|].
    destruct (Ascii.eqb_spec a b) as [->|]; [|discriminate].
    now rewrite (IH _ H).
Qed.

Lemma all_chars_app (f : ascii -> bool) (a b : string) :
  all_chars f (a ++ b) = all_chars f a && all_chars f b.
Proof.
  induction a as [|x a IH]; simpl; [reflexivity|].
  now rewrite IH, andb_assoc.
Qed.

Lemma wf_body_inv (body : string) :
  wf_body body = true ->
  exists c b, body = String c b /\ is_dash c = false /\ dash_free b = true.
Proof.
  unfold wf_body, dash_free. destruct body as [|c b]; simpl; [discriminate|].
  intros H. apply andb_prop in H as [Hc Hb].
  exists c, b. repeat split; [|exact Hb].
  now destruct (is_dash c).
Qed.

(** ** Threads of the matcher *)

Lemma run_sound (r : regex) :
  forall g s t, In t (run r g s) -> s = taken t ++ rest t.
Proof.
  induction r as [l|r1 IH1 r2 IH2|r1 IH1 r2 IH2|r1 IH1| | |r1 IH1];
    simpl; intros g s t H.
  - destruct (strip_prefix l s) eqn:E; [|contradiction].
    destruct H as [<-|[]]. simpl. now apply strip_prefix_Some.
  - apply in_flat_map in H as (t1 & H1 & H2).
    apply in_map_iff in H2 as (t2 & <- & H2).
    simpl. rewrite append_assoc.
    rewrite <- (IH2 _ _ _ H2). now apply IH1 with (g := g).
  - apply in_app_or in H as [H|H]; eauto.
  - apply in_map_iff in H as (t1 & <- & H1). simpl. eauto.
  - destruct g as [l|]; [|contradiction].
    destruct (strip_prefix l s) eqn:E; [|contradiction].
    destruct H as [<-|[]]. simpl. now apply strip_prefix_Some.
  - apply in_map_iff in H as ([m s'] & <- & H). simpl.
    clear g. revert m s' H. induction s as [|c s IH]; simpl; intros m s' H.
    + contradiction.
    + destruct H as [H|H].
      * now inversion H.
      * apply in_map_iff in H as ([m1 s1] & E & H). inversion E; subst.
        simpl. now rewrite <- (IH _ _ H).
  - apply in_app_or in H as [H|[<-|[]]]; eauto.
Qed.

Lemma run_Seq_Lit (l : string) (r : regex) (g : option string) (s : string) :
  run (Seq (Lit l) r) g (l ++ s) = map (extend l) (run r g s).
Proof.
  simpl. rewrite strip_prefix_app. simpl. now rewrite app_nil_r.
Qed.

Lemma run_Seq_Lit_None (l : string) (r : regex) (g : option string) (s : string) :
  strip_prefix l s = None -> run (Seq (Lit l) r) g s = [].
Proof. intros H. simpl. now rewrite H. Qed.

Lemma run_Seq_Backref (l : string) (r : regex) (s : string) :
  run (Seq Backref1 r) (Some l) (l ++ s) = map (extend l) (run r (Some l) s).
Proof.
  simpl. rewrite strip_prefix_app. simpl. now rewrite app_nil_r.
Qed.

(** ** Matching one block *)

Lemma _PEM_RE_unfold :
  _PEM_RE =
  Seq (Lit "-----BEGIN ")
 (Seq (Group1 (alternation (keys _PEM_TO_CLASS)))
 (Seq (Lit ("-----" ++ LF))
 (Seq AnyPlusLazy end_line))).
Proof. reflexivity. Qed.

Lemma pem_block_app (eol label body : string) (tr : bool) (s : string) :
  pem_block eol label body tr ++ s =
  "-----BEGIN " ++ label ++ "-----" ++ eol ++ body ++ eol
    ++ "-----END " ++ label ++ "-----" ++ (if tr then eol else "") ++ s.
Proof.
  unfold pem_block. cbn [append].
  repeat (rewrite !append_assoc; cbn [append]). reflexivity.
Qed.

Lemma run_Seq_labels (r : regex) (g : option string) (label s : string) :
  registered label ->
  run (Seq (Group1 (alternation (keys _PEM_TO_CLASS))) r) g (label ++ "-----" ++ s)
  = map (extend label) (run r (Some label) ("-----" ++ s)).
Proof.
  intros [<-|[<-|[<-|[]]]]; cbn -[extend run]; 
    cbn [run flat_map alternation strip_prefix Ascii.eqb Bool.eqb app map
         taken rest captured];
    now rewrite app_nil_r.
Qed.

(** The END line is found where it stands; the line feed after it is taken
    when there is one. *)
Lemma run_end_line (label : string) (tr : bool) (s : string) :
  (tr = false -> strip_prefix LF s = None) ->
  exists tl,
    run end_line (Some label)
        (LF ++ "-----END " ++ label ++ "-----" ++ (if tr then LF else "") ++ s)
    = Thread (LF ++ "-----END " ++ label ++ "-----" ++ (if tr then LF else ""))
             s (Some label) :: tl.
Proof.
  intros Hs. unfold end_line.
  change (LF ++ "-----END " ++ ?x) with ((LF ++ "-----END ") ++ x).
  rewrite run_Seq_Lit, run_Seq_Backref, run_Seq_Lit.
  destruct tr.
  - eexists. cbn [run]. rewrite strip_prefix_app. reflexivity.
  - eexists. cbn [run append]. rewrite (Hs eq_refl). reflexivity.
Qed.

(** The END line is not found earlier, inside a hyphen-free body. *)
Lemma run_end_line_body (g : option string) (m t : string) :
  m <> "" -> dash_free m = true ->
  run end_line g (m ++ LF ++ t) = [].
Proof.
  intros Hm Hd. unfold end_line. apply run_Seq_Lit_None.
  destruct m as [|c m]; [congruence|].
  unfold dash_free in Hd. cbn in Hd. apply andb_prop in Hd as [Hc Hd].
  cbn -[Ascii.eqb]. destruct (Ascii.eqb _ c); [|reflexivity].
  destruct m as [|c' m]; [reflexivity|].
  cbn in Hd. apply andb_prop in Hd as [Hc' _].
  cbn -[Ascii.eqb]. unfold is_dash in Hc'.
  rewrite Ascii.eqb_sym. now destruct (Ascii.eqb c' "-").
Qed.

Lemma flat_map_map {A B C} (f : B -> list C) (h : A -> B) (l : list A) :
  flat_map f (map h l) = flat_map (fun a => f (h a)) l.
Proof. induction l as [|a l IH]; simpl; [reflexivity | now rewrite IH]. Qed.

(** Laziness: the shortest split after which the continuation succeeds is
    the first thread. *)
Lemma any_plus_lazy_first (b : string) :
  forall (c : ascii) (F : string -> string -> list thread) (t : string),
  (forall m1 m2, String c b = m1 ++ m2 -> m1 <> "" -> m2 <> "" ->
                 F m1 (m2 ++ t) = []) ->
  exists tl,
    flat_map (fun ms => F (fst ms) (snd ms)) (any_plus_lazy (String c b ++ t))
    = (F (String c b) t ++ tl)%list.
Proof.
  induction b as [|c' b IH]; intros c F t HF.
  - cbn. eexists. reflexivity.
  - cbn [append any_plus_lazy flat_map fst snd].
    change (String c' (b ++ t)) with (String c' b ++ t).
    rewrite (HF (String c "") (String c' b)); [|reflexivity|discriminate..].
    rewrite flat_map_map. cbn [fst snd app].
    destruct (IH c' (fun m r => F (String c m) r) t) as [tl Htl].
    + intros m1 m2 E H1 H2. apply HF; [|discriminate|exact H2].
      cbn. now rewrite <- E.
    + exists tl. exact Htl.
Qed.

Lemma dash_free_suffix (m1 m2 : string) :
  dash_free (m1 ++ m2) = true -> dash_free m2 = true.
Proof.
  unfold dash_free. rewrite all_chars_app. intros H.
  now apply andb_prop in H as [_ H].
Qed.

(** A well-formed block with a registered label is matched whole, and is
    the first thread, provided the text after a block that lacks its final
    line feed does not start with one. *)
Lemma run_pem_block (label body : string) (tr : bool) (s : string) :
  registered label -> wf_body body = true ->
  (tr = false -> strip_prefix LF s = None) ->
  exists tl,
    run _PEM_RE None (pem_block LF label body tr ++ s)
    = Thread (pem_block LF label body tr) s (Some label) :: tl.
Proof.
  intros HL Hb Hs.
  destruct (wf_body_inv _ Hb) as (c & b & -> & Hc & Hd).
  rewrite pem_block_app, _PEM_RE_unfold.
  rewrite run_Seq_Lit, run_Seq_labels by exact HL.
  change ("-----" ++ LF ++ ?x) with (("-----" ++ LF) ++ x).
  rewrite run_Seq_Lit.
  cbn [run]. rewrite flat_map_map. cbn [taken rest captured].
  destruct (any_plus_lazy_first b c
              (fun m r => map (extend m) (run end_line (Some label) r))
              (LF ++ "-----END " ++ label ++ "-----" ++ (if tr then LF else "") ++ s))
    as [tl Htl].
  - intros m1 m2 E H1 H2. rewrite run_end_line_body; [reflexivity|exact H2|].
    apply dash_free_suffix with (m1 := m1). rewrite <- E.
    unfold dash_free. cbn [all_chars]. rewrite Hc. exact Hd.
  - cbn [fst snd] in Htl.
    change (String c b ++ LF ++ ?x) with (String c (b ++ LF ++ x)) in Htl |- *.
    rewrite Htl.
    destruct (run_end_line label tr s Hs) as [tl' ->].
    eexists. cbn [map app extend taken rest captured].
    reflexivity.
Qed.

Lemma match_here_pem_block (label body : string) (tr : bool) (s : string) :
  registered label -> wf_body body = true ->
  (tr = false -> strip_prefix LF s = None) ->
  match_here _PEM_RE (pem_block LF label body tr ++ s)
  = Some (ReMatch (pem_block LF label body tr) (Some label)).
Proof.
  intros HL Hb Hs. unfold match_here.
  destruct (run_pem_block label body tr s HL Hb Hs) as [tl ->]. reflexivity.
Qed.

(** ** Scanning *)

Lemma scan_skip (r : regex) (p s : string) :
  scan r (String.length p) (p ++ s) = scan r 0 s.
Proof. induction p as [|c p IH]; [reflexivity | exact IH]. Qed.

Lemma scan_match (r : regex) (m s : string) (g : option string) :
  m <> "" ->
  match_here r (m ++ s) = Some (ReMatch m g) ->
  scan r 0 (m ++ s) = ReMatch m g :: scan r 0 s.
Proof.
  intros Hm H. destruct m as [|c m]; [congruence|].
  cbn [append scan]. cbn [append] in H. rewrite H.
  cbn [group0 String.length pred]. now rewrite scan_skip.
Qed.

Lemma scan_no_match (r : regex) (c : ascii) (s : string) :
  match_here r (String c s) = None ->
  scan r 0 (String c s) = scan r 0 s.
Proof. intros H. cbn [scan]. now rewrite H. Qed.

(** ** Sequences of blocks *)

Lemma pem_block_nonempty (eol l b : string) (tr : bool) : pem_block eol l b tr <> "".
Proof. discriminate. Qed.

Lemma scan_blocks (bs : list block) (tail : string) :
  Forall wf_block bs ->
  strip_prefix LF tail = None ->
  scan _PEM_RE 0 (join (map block_text bs) ++ tail)
  = (map match_of_block bs ++ scan _PEM_RE 0 tail)%list.
Proof.
  intros Hbs Ht. induction Hbs as [|b bs [HL Hb] _ IH]; [reflexivity|].
  cbn [map join fold_right app]. fold (join (map block_text bs)).
  rewrite append_assoc, scan_match with (g := Some (label b)).
  - now rewrite IH.
  - apply pem_block_nonempty.
  - apply match_here_pem_block; [exact HL|exact Hb|].
    intros _. destruct bs as [|b' bs]; [exact Ht|reflexivity].
Qed.

(** ** Building the objects *)

Lemma parse_unfold (s : string) : parse s = mapM make (finditer _PEM_RE s).
Proof. reflexivity. Qed.

Lemma getitem_registered (l : string) :
  registered l ->
  exists cls, getitem _PEM_TO_CLASS (Some l) = inr cls
              /\ variant_of_label l = Some cls.
Proof. intros [<-|[<-|[<-|[]]]]; eexists; split; reflexivity. Qed.

Lemma mapM_blocks (bs : list block) :
  Forall wf_block bs ->
  forall n, exists objs,
    mapM make (map match_of_block bs) n = inr (objs, n + length bs)
    /\ map __str__ objs = map block_text bs
    /\ map (fun o => Some (__class__ o)) objs
       = map (fun b => variant_of_label (label b)) bs.
Proof.
  induction 1 as [|b bs [HL Hb] _ IH]; intros n.
  - exists []. cbn. rewrite Nat.add_0_r. auto.
  - destruct (getitem_registered _ HL) as (cls & Hg & Hv).
    destruct (IH (S n)) as (objs & Hm & Hs & Hc).
    exists (Object n cls (block_text b) :: objs).
    cbn [map mapM length]. unfold bind at 1. unfold make at 1.
    unfold bind at 1. cbn [match_of_block group1 group0]. rewrite Hg.
    cbn [lift ret new]. unfold bind at 1. rewrite Hm. cbn [ret].
    rewrite Hs, Hc, Hv. cbn [__str__ pem_str __class__].
    unfold ret. rewrite <- plus_n_Sm. auto.
Qed.

(** ** What a match of [_PEM_RE] looks like *)

Lemma in_run_Seq (a b : regex) (g : option string) (s : string) (t : thread) :
  In t (run (Seq a b) g s) ->
  exists t1 t2,
    In t1 (run a g s) /\ In t2 (run b (captured t1) (rest t1))
    /\ taken t = taken t1 ++ taken t2 /\ rest t = rest t2
    /\ captured t = captured t2.
Proof.
  cbn [run]. intros H. apply in_flat_map in H as (t1 & H1 & H2).
  apply in_map_iff in H2 as (t2 & <- & H2). now exists t1, t2.
Qed.

Lemma in_run_Lit (l : string) (g : option string) (s : string) (t : thread) :
  In t (run (Lit l) g s) -> taken t = l /\ captured t = g.
Proof.
  cbn [run]. destruct (strip_prefix l s); [|contradiction].
  now intros [<-|[]].
Qed.

Lemma in_run_Backref (g : option string) (s : string) (t : thread) :
  In t (run Backref1 g s) -> g = Some (taken t) /\ captured t = g.
Proof.
  cbn [run]. destruct g as [l|]; [|contradiction].
  destruct (strip_prefix l s); [|contradiction].
  now intros [<-|[]].
Qed.

Lemma in_any_plus_lazy (s m r : string) :
  In (m, r) (any_plus_lazy s) -> m <> "".
Proof.
  destruct s as [|c s]; cbn [any_plus_lazy]; [contradiction|].
  intros [H|H]; [inversion H; discriminate|].
  apply in_map_iff in H as (ms & E & _). inversion E. discriminate.
Qed.

Lemma in_run_AnyPlusLazy (g : option string) (s : string) (t : thread) :
  In t (run AnyPlusLazy g s) -> taken t <> "" /\ captured t = g.
Proof.
  cbn [run]. intros H. apply in_map_iff in H as ([m r] & <- & H).
  split; [|reflexivity]. now apply in_any_plus_lazy in H.
Qed.

Lemma in_run_Opt_Lit (l : string) (g : option string) (s : string) (t : thread) :
  In t (run (Opt (Lit l)) g s) ->
  (taken t = l \/ taken t = "") /\ captured t = g.
Proof.
  cbn [run]. intros H. apply in_app_or in H as [H|[<-|[]]].
  - apply (in_run_Lit l g s) in H as [-> ->]. auto.
  - auto.
Qed.

Lemma in_run_labels (g : option string) (s : string) (t : thread) :
  In t (run (Group1 (alternation (keys _PEM_TO_CLASS))) g s) ->
  registered (taken t) /\ captured t = Some (taken t).
Proof.
  cbn [run]. intros H. apply in_map_iff in H as (t1 & <- & H).
  cbn [taken captured]. split; [|reflexivity].
  change (alternation (keys _PEM_TO_CLASS))
    with (Alt (Lit "CERTIFICATE") (Alt (Lit "RSA PRIVATE KEY") (Lit "DH PARAMETERS")))
    in H.
  cbn [run] in H. unfold registered.
  change (keys _PEM_TO_CLASS)
    with ["CERTIFICATE"; "RSA PRIVATE KEY"; "DH PARAMETERS"].
  apply in_app_or in H as [H|H]; [|apply in_app_or in H as [H|H]];
    match type of H with
    | In _ (match strip_prefix ?l _ with _ => _ end) =>
        apply (in_run_Lit l g s) in H as [-> _]
    end; cbn; auto.
Qed.

(** Every thread of [_PEM_RE] has taken the text of a block with a
    registered label and a body of at least one character, and holds the
    label in group 1. *)
Lemma in_run_PEM_RE (s : string) (t : thread) :
  In t (run _PEM_RE None s) ->
  exists l b tr,
    registered l /\ b <> ""
    /\ taken t = pem_block LF l b tr /\ captured t = Some l.
Proof.
  rewrite _PEM_RE_unfold. unfold end_line. intros H.
  apply in_run_Seq in H as (t1 & u1 & H1 & H & E1 & _ & G1).
  apply in_run_Lit in H1 as [T1 _].
  apply in_run_Seq in H as (t2 & u2 & H2 & H & E2 & _ & G2).
  apply in_run_labels in H2 as [R2 C2].
  apply in_run_Seq in H as (t3 & u3 & H3 & H & E3 & _ & G3).
  apply in_run_Lit in H3 as [T3 C3].
  apply in_run_Seq in H as (t4 & u4 & H4 & H & E4 & _ & G4).
  apply in_run_AnyPlusLazy in H4 as [T4 C4].
  apply in_run_Seq in H as (t5 & u5 & H5 & H & E5 & _ & G5).
  apply in_run_Lit in H5 as [T5 C5].
  apply in_run_Seq in H as (t6 & u6 & H6 & H & E6 & _ & G6).
  apply in_run_Backref in H6 as [B6 C6].
  apply in_run_Seq in H as (t7 & u7 & H7 & H & E7 & _ & G7).
  apply in_run_Lit in H7 as [T7 C7].
  apply in_run_Opt_Lit in H as [T8 C8].
  assert (B : Some (taken t2) = Some (taken t6)) by congruence.
  inversion B as [B'].
  assert (G : captured t = Some (taken t2)) by congruence.
  exists (taken t2), (taken t4).
  exists (match taken u7 with EmptyString => false | _ => true end).
  repeat split; [exact R2|exact T4| |exact G].
  rewrite E1, E2, E3, E4, E5, E6, E7, T1, T3, T5, T7, <- B'.
  unfold pem_block.
  destruct T8 as [-> | ->]; cbn [append LF];
    repeat (rewrite !append_assoc; cbn [append]); reflexivity.
Qed.

(** Every match found by the scanner stands in the text, and is a thread
    of the pattern at the place where it stands. *)
Lemma in_scan (r : regex) (s : string) :
  forall k m, In m (scan r k s) ->
  exists pre t,
    s = pre ++ taken t ++ rest t
    /\ In t (run r None (taken t ++ rest t))
    /\ group0 m = taken t /\ group1 m = captured t.
Proof.
  assert (Here : forall x m, match_here r x = Some m ->
            exists t, x = taken t ++ rest t /\ In t (run r None (taken t ++ rest t))
                      /\ group0 m = taken t /\ group1 m = captured t).
  { intros x m. unfold match_here. destruct (run r None x) as [|t tl] eqn:E;
      [discriminate|].
    intros [= <-]. exists t.
    assert (Hx : x = taken t ++ rest t)
      by (apply (run_sound r None); rewrite E; now left).
    rewrite <- Hx, E. cbn [group0 group1]. auto using in_eq. }
  induction s as [|c s IH]; intros k m; cbn [scan].
  - destruct k; [|contradiction].
    destruct (match_here r "") as [m0|] eqn:E; [|contradiction].
    intros [<-|[]]. destruct (Here _ _ E) as (t & Hx & Ht & H0 & H1).
    exists "", t. auto.
  - destruct k as [|k].
    + destruct (match_here r (String c s)) as [m0|] eqn:E.
      * intros [<-|H].
        -- destruct (Here _ _ E) as (t & Hx & Ht & H0 & H1).
           exists "", t. auto.
        -- destruct (IH _ _ H) as (pre & t & Hx & Ht).
           exists (String c pre), t. cbn [append]. now rewrite <- Hx.
      * intros H. destruct (IH _ _ H) as (pre & t & Hx & Ht).
        exists (String c pre), t. cbn [append]. now rewrite <- Hx.
    + intros H. destruct (IH _ _ H) as (pre & t & Hx & Ht).
      exists (String c pre), t. cbn [append]. now rewrite <- Hx.
Qed.

(** ** Matches of [finditer _PEM_RE] *)

Lemma finditer_block_match (s : string) :
  Forall block_match (finditer _PEM_RE s).
Proof.
  apply Forall_forall. intros m H.
  apply in_scan in H as (pre & t & _ & Ht & H0 & H1).
  apply in_run_PEM_RE in Ht as (l & b & tr & Hl & Hb & Ht & Hc).
  exists l, b, tr. rewrite H0, H1. auto.
Qed.

Lemma finditer_contains_block (s : string) (m : re_match) :
  In m (finditer _PEM_RE s) -> contains_block s.
Proof.
  intros H. apply in_scan in H as (pre & t & Hs & Ht & _).
  apply in_run_PEM_RE in Ht as (l & b & tr & Hl & Hb & Ht & _).
  exists pre, l, b, ((if tr then LF else "") ++ rest t).
  repeat split; [exact Hl|exact Hb|].
  now rewrite Hs, Ht, pem_block_app.
Qed.

Lemma mapM_make_ok (ms : list re_match) :
  Forall block_match ms ->
  forall n, exists objs,
    mapM make ms n = inr (objs, n + length ms)
    /\ map __str__ objs = map group0 ms.
Proof.
  induction 1 as [|m ms (l & b & tr & Hl & _ & _ & H1) _ IH]; intros n.
  - exists []. cbn. now rewrite Nat.add_0_r.
  - destruct (getitem_registered _ Hl) as (cls & Hg & _).
    destruct (IH (S n)) as (objs & Hm & Hs).
    exists (Object n cls (group0 m) :: objs).
    cbn [map mapM length]. unfold bind at 1. unfold make at 1.
    unfold bind at 1. rewrite H1, Hg.
    cbn [lift ret new]. unfold bind at 1. rewrite Hm. cbn [ret].
    rewrite Hs. cbn [__str__ pem_str].
    unfold ret. rewrite <- plus_n_Sm. auto.
Qed.

Lemma contains_block_dash (s : string) :
  contains_block s -> dash_free s = false.
Proof.
  intros (pre & l & b & post & _ & _ & ->).
  unfold dash_free. rewrite all_chars_app. cbn. apply andb_false_r.
Qed.

(** ** Places where no match starts *)

Lemma begins_pem_block (l b : string) (tr : bool) (s : string) :
  registered l -> begins (pem_block LF l b tr ++ s) = true.
Proof. intros [<-|[<-|[<-|[]]]]; reflexivity. Qed.

Lemma match_here_begins (s : string) :
  begins s = false -> match_here _PEM_RE s = None.
Proof.
  intros H. unfold match_here.
  destruct (run _PEM_RE None s) as [|t tl] eqn:E; [reflexivity|].
  assert (Ht : In t (run _PEM_RE None s)) by (rewrite E; now left).
  pose proof (run_sound _ _ _ _ Ht) as Hs.
  apply in_run_PEM_RE in Ht as (l & b & tr & Hl & _ & Ht & _).
  rewrite Hs, Ht, begins_pem_block in H by exact Hl. discriminate.
Qed.

Lemma scan_no_begin (p r : string) :
  no_begin_in p r -> scan _PEM_RE 0 (p ++ r) = scan _PEM_RE 0 r.
Proof.
  induction p as [|c p IH]; cbn [no_begin_in append]; [reflexivity|].
  intros [H Hp]. rewrite scan_no_match by now apply match_here_begins.
  now apply IH.
Qed.

Lemma no_begin_in_app (p q r : string) :
  no_begin_in p (q ++ r) -> no_begin_in q r -> no_begin_in (p ++ q) r.
Proof.
  induction p as [|c p IH]; cbn [no_begin_in append]; [auto|].
  intros [H Hp] Hq. rewrite append_assoc. auto.
Qed.

Lemma begins_not_dash (c : ascii) (s : string) :
  is_dash c = false -> begins (String c s) = false.
Proof.
  unfold is_dash. rewrite Ascii.eqb_sym. intros H.
  unfold begins, has_prefix. cbn -[Ascii.eqb]. now rewrite H.
Qed.

Lemma no_begin_in_dash_free (p r : string) :
  dash_free p = true -> no_begin_in p r.
Proof.
  unfold dash_free. induction p as [|c p IH]; cbn [all_chars no_begin_in]; [auto|].
  intros H. apply andb_prop in H as [Hc Hp]. split; [|auto].
  apply begins_not_dash. now destruct (is_dash c).
Qed.

(** Two hyphen-free labels, each followed by a hyphen, agree when one text
    is a prefix of the other. *)
Lemma strip_prefix_labels (l : string) :
  forall u y x,
  dash_free l = true -> dash_free u = true ->
  strip_prefix (l ++ String "-" y) (u ++ String "-" x) <> None -> l = u.
Proof.
  unfold dash_free, is_dash.
  induction l as [|a l IH]; intros [|c u] y x Hl Hu H; cbn [all_chars] in *.
  - reflexivity.
  - exfalso. apply andb_prop in Hu as [Hc _]. apply H.
    cbn -[Ascii.eqb]. rewrite Ascii.eqb_sym.
    now destruct (Ascii.eqb c "-").
  - exfalso. apply andb_prop in Hl as [Ha _]. apply H.
    cbn -[Ascii.eqb]. now destruct (Ascii.eqb a "-").
  - apply andb_prop in Hl as [_ Hl]. apply andb_prop in Hu as [_ Hu].
    cbn -[Ascii.eqb] in H. destruct (Ascii.eqb_spec a c) as [->|];
      [|congruence].
    f_equal. now apply (IH u y x).
Qed.

Lemma registered_dash_free (l : string) : registered l -> dash_free l = true.
Proof. intros [<-|[<-|[<-|[]]]]; reflexivity. Qed.

(** A BEGIN line with a hyphen-free label outside the registry starts no
    match. *)
Lemma begins_unregistered (u x : string) :
  dash_free u = true -> ~ registered u ->
  begins ("-----BEGIN " ++ u ++ "-----" ++ x) = false.
Proof.
  intros Hu Hn.
  assert (H : forall k, registered k ->
            has_prefix ("-----BEGIN " ++ k ++ "-----" ++ LF)
                       ("-----BEGIN " ++ u ++ "-----" ++ x) = false).
  { intros k Hk. unfold has_prefix.
    destruct (strip_prefix _ _) as [s|] eqn:E; [exfalso|reflexivity].
    change (strip_prefix (k ++ String "-" ("----" ++ LF))
                         (u ++ String "-" ("----" ++ x)) = Some s) in E.
    apply Hn.
    rewrite <- (strip_prefix_labels k u ("----" ++ LF) ("----" ++ x));
      [exact Hk|now apply registered_dash_free|exact Hu|congruence]. }
  unfold begins.
  change (keys _PEM_TO_CLASS)
    with ["CERTIFICATE"; "RSA PRIVATE KEY"; "DH PARAMETERS"].
  cbn [existsb].
  rewrite !H; [reflexivity|..]; unfold registered; cbn; auto.
Qed.

(** Past its first character, a block with hyphen-free label and body
    holds no place where a match starts, whatever its line terminator,
    when the text that follows is empty or is itself a BEGIN line. *)
Lemma no_begin_in_block_tail (eol u b : string) (tr : bool) (r : string) :
  eol = LF \/ eol = CRLF ->
  dash_free u = true -> dash_free b = true ->
  r = "" \/ (exists x, r = "-----B" ++ x) ->
  no_begin_in ("----BEGIN " ++ u ++ "-----" ++ eol ++ b ++ eol
                 ++ "-----END " ++ u ++ "-----" ++ (if tr then eol else "")) r.
Proof.
  intros He Hu Hb Hr.
  apply no_begin_in_app;
    [cbn [no_begin_in append]; repeat split; reflexivity|].
  apply no_begin_in_app; [now apply no_begin_in_dash_free|].
  assert (H3 : forall y, no_begin_in ("-----" ++ eol) y)
    by (intros y; destruct He as [-> | ->];
        cbn [no_begin_in append CRLF CR LF]; repeat split; reflexivity).
  assert (H5 : forall y, no_begin_in (eol ++ "-----END ") y)
    by (intros y; destruct He as [-> | ->];
        cbn [no_begin_in append CRLF CR LF]; repeat split; reflexivity).
  assert (H7 : no_begin_in ("-----" ++ (if tr then eol else "")) r)
    by (destruct tr; [apply H3|];
        destruct Hr as [-> | [x ->]];
        cbn [no_begin_in append]; repeat split; reflexivity).
  rewrite <- (append_assoc "-----" eol). apply no_begin_in_app; [apply H3|].
  apply no_begin_in_app; [now apply no_begin_in_dash_free|].
  rewrite <- (append_assoc eol "-----END "). apply no_begin_in_app; [apply H5|].
  apply no_begin_in_app; [now apply no_begin_in_dash_free|].
  exact H7.
Qed.

Lemma wf_body_dash_free (b : string) : wf_body b = true -> dash_free b = true.
Proof. unfold wf_body. intros H. now apply andb_prop in H as [_ H]. Qed.

Lemma pem_block_app_head (eol u b : string) (tr : bool) (s : string) :
  pem_block eol u b tr ++ s
  = String "-" (("----BEGIN " ++ u ++ "-----" ++ eol ++ b ++ eol
                   ++ "-----END " ++ u ++ "-----" ++ (if tr then eol else ""))
                  ++ s).
Proof. reflexivity. Qed.

(** One scanning step over a well-formed block. *)
Lemma scan_block (l b : string) (tr : bool) (s : string) :
  registered l -> wf_body b = true -> strip_prefix LF s = None ->
  scan _PEM_RE 0 (pem_block LF l b tr ++ s)
  = ReMatch (pem_block LF l b tr) (Some l) :: scan _PEM_RE 0 s.
Proof.
  intros Hl Hb Hs. apply scan_match; [apply pem_block_nonempty|].
  now apply match_here_pem_block.
Qed.

(** The scanner walks over a whole block without a match when the block
    starts none and its label and body are hyphen-free. *)
Lemma scan_over_block (eol u b : string) (tr : bool) (s : string) :
  eol = LF \/ eol = CRLF ->
  dash_free u = true -> dash_free b = true ->
  s = "" \/ (exists x, s = "-----B" ++ x) ->
  begins (pem_block eol u b tr ++ s) = false ->
  scan _PEM_RE 0 (pem_block eol u b tr ++ s) = scan _PEM_RE 0 s.
Proof.
  intros He Hu Hb Hs H0. rewrite pem_block_app_head in *.
  rewrite scan_no_match by now apply match_here_begins.
  apply scan_no_begin. now apply no_begin_in_block_tail.
Qed.

(** ** The order of the registry keys

    The alternatives of the pattern come from [_PEM_TO_CLASS.keys()], whose
    order is the one of the dictionary.  No label is a prefix of another,
    so the order has no effect on the matcher. *)

Lemma permutation_of_keys (ks : list string) :
  Permutation ks (keys _PEM_TO_CLASS) ->
  In ks [ ["CERTIFICATE"; "RSA PRIVATE KEY"; "DH PARAMETERS"];
          ["CERTIFICATE"; "DH PARAMETERS"; "RSA PRIVATE KEY"];
          ["RSA PRIVATE KEY"; "CERTIFICATE"; "DH PARAMETERS"];
          ["RSA PRIVATE KEY"; "DH PARAMETERS"; "CERTIFICATE"];
          ["DH PARAMETERS"; "CERTIFICATE"; "RSA PRIVATE KEY"];
          ["DH PARAMETERS"; "RSA PRIVATE KEY"; "CERTIFICATE"] ].
Proof.
  intros H.
  assert (ND : NoDup ks).
  { apply (Permutation_NoDup (Permutation_sym H)).
    repeat constructor; cbn; intuition discriminate. }
  pose proof (Permutation_length H) as L.
  destruct ks as [|x [|y [|z [|w ks]]]]; try discriminate L.
  assert (Hx : In x (keys _PEM_TO_CLASS)) by (apply (Permutation_in _ H); cbn; auto).
  assert (Hy : In y (keys _PEM_TO_CLASS)) by (apply (Permutation_in _ H); cbn; auto).
  assert (Hz : In z (keys _PEM_TO_CLASS)) by (apply (Permutation_in _ H); cbn; auto).
  inversion ND as [|? ? Nx ND1]; subst.
  inversion ND1 as [|? ? Ny ND2]; subst.
  cbn in Nx, Ny.
  destruct Hx as [<-|[<-|[<-|[]]]];
    destruct Hy as [<-|[<-|[<-|[]]]];
    destruct Hz as [<-|[<-|[<-|[]]]];
    try (exfalso; tauto); cbn; tauto.
Qed.

Lemma run_alternation_order (ks : list string) (g : option string) (s : string) :
  Permutation ks (keys _PEM_TO_CLASS) ->
  run (alternation ks) g s = run (alternation (keys _PEM_TO_CLASS)) g s.
Proof.
  intros H. apply permutation_of_keys in H.
  change (keys _PEM_TO_CLASS)
    with ["CERTIFICATE"; "RSA PRIVATE KEY"; "DH PARAMETERS"].
  assert (HC : forall a, strip_prefix "CERTIFICATE" s = Some a ->
                 strip_prefix "RSA PRIVATE KEY" s = None
                 /\ strip_prefix "DH PARAMETERS" s = None)
    by (intros a E; apply strip_prefix_Some in E; subst s; split; reflexivity).
  assert (HR : forall a, strip_prefix "RSA PRIVATE KEY" s = Some a ->
                 strip_prefix "DH PARAMETERS" s = None)
    by (intros a E; apply strip_prefix_Some in E; subst s; reflexivity).
  cbn [In] in H.
  destruct H as [<-|[<-|[<-|[<-|[<-|[<-|[]]]]]]]; cbn [alternation run];
    destruct (strip_prefix "CERTIFICATE" s) as [a|] eqn:EC;
    try (destruct (HC a eq_refl) as [-> ->]; reflexivity);
    destruct (strip_prefix "RSA PRIVATE KEY" s) as [b|] eqn:ER;
    try (rewrite (HR b eq_refl); reflexivity);
    destruct (strip_prefix "DH PARAMETERS" s); reflexivity.
Qed.

Lemma key_order_irrelevant (ks : list string) (s : string) :
  Permutation ks (keys _PEM_TO_CLASS) ->
  finditer (pem_pattern ks) s = finditer _PEM_RE s.
Proof.
  intros H. unfold finditer.
  assert (R : forall x, run (pem_pattern ks) None x = run _PEM_RE None x).
  { intros x. unfold _PEM_RE, pem_pattern.
    cbn [run]. destruct (strip_prefix "-----BEGIN " x) as [x'|]; [|reflexivity].
    cbn [flat_map taken rest captured].
    now rewrite (run_alternation_order ks None x' H). }
  assert (M : forall x, match_here (pem_pattern ks) x = match_here _PEM_RE x)
    by (intros x; unfold match_here; now rewrite R).
  generalize 0. induction s as [|c s IH]; intros k; cbn [scan].
  - now rewrite M.
  - destruct k; [|apply IH]. rewrite M.
    destruct (match_here _PEM_RE (String c s)); now rewrite IH.
Qed.


(** * Main results *)

Lemma finditer_blocks (bs : list block) :
  Forall wf_block bs ->
  finditer _PEM_RE (join (map block_text bs)) = map match_of_block bs.
Proof.
  intros H. unfold finditer.
  rewrite <- (append_nil_r (join (map block_text bs))).
  rewrite scan_blocks by (exact H || reflexivity).
  cbn [scan]. change (match_here _PEM_RE "") with (@None re_match).
  apply app_nil_r.
Qed.

(** C1: a well-formed single block with a registered label and line-feed
    line endings parses to exactly one object whose [str] is the block
    itself, character for character, whether or not the block ends with a
    final line feed ([tr]); when present that line feed is part of the
    object's text. *)
Theorem parse_single_block_roundtrip (l b : string) (tr : bool) (n : nat) :
  registered l -> wf_body b = true ->
  exists o,
    parse (pem_block LF l b tr) n = inr ([o], S n)
    /\ __str__ o = pem_block LF l b tr.
Proof.
  intros Hl Hb.
  assert (Hbs : Forall wf_block [Block l b tr])
    by (constructor; [split; assumption | constructor]).
  assert (E : pem_block LF l b tr = join (map block_text [Block l b tr]))
    by (cbn [map join fold_right]; now rewrite append_nil_r).
  destruct (mapM_blocks _ Hbs n) as (objs & Hm & Hs & _).
  destruct objs as [|o [|o' objs]]; try discriminate.
  exists o. split.
  - rewrite E, parse_unfold, finditer_blocks, Hm by exact Hbs.
    cbn [length]. now rewrite Nat.add_1_r.
  - now inversion Hs.
Qed.

Lemma parse_single_block_roundtrip_witness :
  exists o,
    parse (pem_block LF "RSA PRIVATE KEY" "MIIB" false) 0 = inr ([o], 1)
    /\ __str__ o = pem_block LF "RSA PRIVATE KEY" "MIIB" false.
Proof.
  apply (parse_single_block_roundtrip "RSA PRIVATE KEY" "MIIB" false 0).
  - right; left; reflexivity.
  - reflexivity.
Defined.

(** X19: the concatenation of N well-formed blocks with registered labels
    whose lines end in a line feed parses to exactly N objects, in source
    order; the class of each is the one its label stands for (CERTIFICATE:
    Certificate, RSA PRIVATE KEY: RSAPrivateKey, DH PARAMETERS:
    DHParameters); the texts of the objects are the blocks, so that joined
    in order they give back the input. *)
Theorem parse_blocks_in_order (bs : list block) (n : nat) :
  Forall wf_block bs ->
  exists objs,
    parse (join (map block_text bs)) n = inr (objs, n + length bs)
    /\ length objs = length bs
    /\ map __str__ objs = map block_text bs
    /\ map (fun o => Some (__class__ o)) objs
       = map (fun b => variant_of_label (label b)) bs
    /\ join (map __str__ objs) = join (map block_text bs)
    /\ variant_of_label "CERTIFICATE" = Some Certificate
    /\ variant_of_label "RSA PRIVATE KEY" = Some RSAPrivateKey
    /\ variant_of_label "DH PARAMETERS" = Some DHParameters.
Proof.
  intros Hbs.
  destruct (mapM_blocks _ Hbs n) as (objs & Hm & Hs & Hc).
  exists objs. rewrite parse_unfold, finditer_blocks by exact Hbs.
  repeat split; try assumption.
  - rewrite <- (length_map __str__), Hs. apply length_map.
  - now rewrite Hs.
Qed.

Lemma parse_blocks_in_order_witness :
  exists objs,
    parse (join (map block_text
                   [Block "RSA PRIVATE KEY" "MIIB" true;
                    Block "CERTIFICATE" "MIIC" false;
                    Block "DH PARAMETERS" "MIID" true])) 7
      = inr (objs, 7 + 3)
    /\ length objs = 3
    /\ map __str__ objs
       = map block_text [Block "RSA PRIVATE KEY" "MIIB" true;
                         Block "CERTIFICATE" "MIIC" false;
                         Block "DH PARAMETERS" "MIID" true]
    /\ map (fun o => Some (__class__ o)) objs
       = [Some RSAPrivateKey; Some Certificate; Some DHParameters]
    /\ join (map __str__ objs)
       = join (map block_text [Block "RSA PRIVATE KEY" "MIIB" true;
                               Block "CERTIFICATE" "MIIC" false;
                               Block "DH PARAMETERS" "MIID" true])
    /\ variant_of_label "CERTIFICATE" = Some Certificate
    /\ variant_of_label "RSA PRIVATE KEY" = Some RSAPrivateKey
    /\ variant_of_label "DH PARAMETERS" = Some DHParameters.
Proof.
  apply (parse_blocks_in_order
           [Block "RSA PRIVATE KEY" "MIIB" true;
            Block "CERTIFICATE" "MIIC" false;
            Block "DH PARAMETERS" "MIID" true] 7).
  repeat apply Forall_cons; try apply Forall_nil; split; try reflexivity.
  - right; left; reflexivity.
  - left; reflexivity.
  - right; right; left; reflexivity.
Defined.

Lemma scan_crlf_blocks (bs : list block) :
  Forall wf_block bs ->
  scan _PEM_RE 0 (join (map block_text_crlf bs)) = [].
Proof.
  induction 1 as [|b bs [Hl Hb] _ IH]; [reflexivity|].
  cbn [map join fold_right]. fold (join (map block_text_crlf bs)).
  unfold block_text_crlf at 1. rewrite scan_over_block; [exact IH|..].
  - now right.
  - now apply registered_dash_free.
  - now apply wf_body_dash_free.
  - destruct bs as [|b' bs]; [now left|right]. eexists. reflexivity.
  - destruct Hl as [E|[E|[E|[]]]]; rewrite <- E; reflexivity.
Qed.

(** C3 (the code departs from it): when the lines of the blocks end in a
    carriage return and a line feed, the concatenation of N well-formed
    blocks with registered labels does not parse to N objects: whatever N,
    no BEGIN line is accepted, since the pattern asks for a line feed right
    after its closing hyphens, and [parse] returns the empty list. *)
Theorem parse_crlf_blocks (bs : list block) (n : nat) :
  Forall wf_block bs ->
  parse (join (map block_text_crlf bs)) n = inr ([], n).
Proof.
  intros H. rewrite parse_unfold. unfold finditer.
  now rewrite scan_crlf_blocks.
Qed.

Lemma parse_crlf_blocks_witness :
  parse (join (map block_text_crlf
                 [Block "RSA PRIVATE KEY" "MIIB" true;
                  Block "CERTIFICATE" "MIIC" true])) 0
  = inr ([], 0).
Proof.
  apply (parse_crlf_blocks
           [Block "RSA PRIVATE KEY" "MIIB" true;
            Block "CERTIFICATE" "MIIC" true] 0).
  repeat apply Forall_cons; try apply Forall_nil; split; try reflexivity.
  - right; left; reflexivity.
  - left; reflexivity.
Defined.

(** C8: [parse] is total.  On every text it returns a list, possibly empty,
    and raises nothing; on a text in which no recognized block occurs it
    returns the empty list. *)
Theorem parse_total (s : string) (n : nat) :
  (exists objs, parse s n = inr (objs, n + length objs))
  /\ (~ contains_block s -> parse s n = inr ([], n)).
Proof.
  rewrite parse_unfold. split.
  - destruct (mapM_make_ok _ (finditer_block_match s) n) as (objs & Hm & Hs).
    exists objs. rewrite Hm. do 2 f_equal.
    now rewrite <- (length_map group0), <- Hs, length_map.
  - intros Hn. destruct (finditer _PEM_RE s) as [|m ms] eqn:E; [reflexivity|].
    exfalso. apply Hn, (finditer_contains_block s m). rewrite E. now left.
Qed.

Lemma parse_total_witness :
  (exists objs, parse "no armour in this text" 4 = inr (objs, 4 + length objs))
  /\ parse "no armour in this text" 4 = inr ([], 4).
Proof.
  destruct (parse_total "no armour in this text" 4) as [H1 H2].
  split; [exact H1|]. apply H2.
  intros H. apply contains_block_dash in H. discriminate H.
Defined.

(** C9: a block with an empty body is never extracted.  For every
    registered label the text made of the BEGIN line directly followed by
    the END line parses to nothing, and every object [parse] returns holds
    at least one body character between its BEGIN line and its END line. *)
Theorem parse_body_nonempty :
  (forall l n, registered l ->
     parse ("-----BEGIN " ++ l ++ "-----" ++ LF ++ "-----END " ++ l ++ "-----" ++ LF) n
     = inr ([], n))
  /\ (forall s n objs n' o,
        parse s n = inr (objs, n') -> In o objs ->
        exists l b tr,
          registered l /\ b <> "" /\ pem_str o = pem_block LF l b tr).
Proof.
  split.
  - intros l n [<-|[<-|[<-|[]]]]; reflexivity.
  - intros s n objs n' o Hp Ho. rewrite parse_unfold in Hp.
    pose proof (finditer_block_match s) as Hf.
    destruct (mapM_make_ok _ Hf n) as (objs' & Hm & Hs).
    rewrite Hm in Hp. inversion Hp; subst objs'.
    assert (Hi : In (pem_str o) (map group0 (finditer _PEM_RE s))).
    { rewrite <- Hs. apply (in_map __str__ _ _ Ho). }
    apply in_map_iff in Hi as (m & Hm0 & Hi).
    rewrite Forall_forall in Hf.
    destruct (Hf m Hi) as (l & b & tr & Hl & Hb & H0 & _).
    exists l, b, tr. rewrite <- Hm0. auto.
Qed.

Lemma parse_body_nonempty_witness :
  parse ("-----BEGIN " ++ "DH PARAMETERS" ++ "-----" ++ LF
           ++ "-----END " ++ "DH PARAMETERS" ++ "-----" ++ LF) 0 = inr ([], 0)
  /\ exists l b tr,
       registered l /\ b <> ""
       /\ pem_block LF "CERTIFICATE" "MIIC" true = pem_block LF l b tr.
Proof.
  destruct parse_body_nonempty as [H1 H2]. split.
  - apply (H1 "DH PARAMETERS" 0). right; right; left; reflexivity.
  - apply (H2 (pem_block LF "CERTIFICATE" "MIIC" true) 0
              [Object 0 Certificate (pem_block LF "CERTIFICATE" "MIIC" true)] 1
              (Object 0 Certificate (pem_block LF "CERTIFICATE" "MIIC" true))).
    + reflexivity.
    + left; reflexivity.
Defined.

(** X18: with lines that end in a line feed, a well-formed block whose
    label (hyphen-free, as FOOBAR) is not registered, standing between two
    well-formed certificate blocks, yields no object and no error: [parse]
    returns exactly the two Certificate objects of the surrounding blocks,
    in order. *)
Theorem parse_skips_unrecognized
        (u b1 b2 b3 : string) (t1 t2 t3 : bool) (n : nat) :
  wf_label u = true -> ~ registered u ->
  wf_body b1 = true -> wf_body b2 = true -> wf_body b3 = true ->
  parse (pem_block LF "CERTIFICATE" b1 t1
           ++ pem_block LF u b2 t2
           ++ pem_block LF "CERTIFICATE" b3 t3) n
  = inr ([Object n Certificate (pem_block LF "CERTIFICATE" b1 t1);
          Object (S n) Certificate (pem_block LF "CERTIFICATE" b3 t3)],
         S (S n)).
Proof.
  intros Hu Hn H1 H2 H3.
  assert (Hc : registered "CERTIFICATE") by (left; reflexivity).
  rewrite parse_unfold. unfold finditer.
  rewrite scan_block by (assumption || reflexivity).
  rewrite scan_over_block.
  - rewrite <- (append_nil_r (pem_block LF "CERTIFICATE" b3 t3)).
    rewrite scan_block by (assumption || reflexivity).
    rewrite append_nil_r. reflexivity.
  - now left.
  - exact Hu.
  - now apply wf_body_dash_free.
  - right. eexists. reflexivity.
  - rewrite pem_block_app. now apply begins_unregistered.
Qed.

Lemma parse_skips_unrecognized_witness :
  parse (pem_block LF "CERTIFICATE" "MIIC" true
           ++ pem_block LF "FOOBAR" "Zm9v" true
           ++ pem_block LF "CERTIFICATE" "MIID" false) 0
  = inr ([Object 0 Certificate (pem_block LF "CERTIFICATE" "MIIC" true);
          Object 1 Certificate (pem_block LF "CERTIFICATE" "MIID" false)],
         2).
Proof.
  apply (parse_skips_unrecognized "FOOBAR" "MIIC" "Zm9v" "MIID" true true false 0);
    try reflexivity.
  intros [H|[H|[H|[]]]]; discriminate H.
Defined.

(** C7 (the code departs from it): when the lines of the three blocks end
    in a carriage return and a line feed, a well-formed block with an
    unregistered label between two well-formed certificate blocks does not
    leave the two certificates: no BEGIN line is accepted and [parse]
    returns the empty list. *)
Theorem parse_crlf_unrecognized
        (u b1 b2 b3 : string) (t1 t2 t3 : bool) (n : nat) :
  wf_label u = true -> ~ registered u ->
  wf_body b1 = true -> wf_body b2 = true -> wf_body b3 = true ->
  parse (pem_block CRLF "CERTIFICATE" b1 t1
           ++ pem_block CRLF u b2 t2
           ++ pem_block CRLF "CERTIFICATE" b3 t3) n
  = inr ([], n).
Proof.
  intros Hu Hn H1 H2 H3.
  rewrite parse_unfold. unfold finditer.
  rewrite scan_over_block;
    [|now right|reflexivity|now apply wf_body_dash_free
     |right; eexists; reflexivity|reflexivity].
  rewrite scan_over_block;
    [|now right|exact Hu|now apply wf_body_dash_free
     |right; eexists; reflexivity
     |rewrite pem_block_app; now apply begins_unregistered].
  rewrite <- (append_nil_r (pem_block CRLF "CERTIFICATE" b3 t3)).
  rewrite scan_over_block;
    [reflexivity|now right|reflexivity|now apply wf_body_dash_free
     |now left|reflexivity].
Qed.

Lemma parse_crlf_unrecognized_witness :
  parse (pem_block CRLF "CERTIFICATE" "MIIC" true
           ++ pem_block CRLF "FOOBAR" "Zm9v" true
           ++ pem_block CRLF "CERTIFICATE" "MIID" true) 0
  = inr ([], 0).
Proof.
  apply (parse_crlf_unrecognized "FOOBAR" "MIIC" "Zm9v" "MIID" true true true 0);
    try reflexivity.
  intros [H|[H|[H|[]]]]; discriminate H.
Defined.

(** C2 (the code departs from it): a well-formed block with a registered
    label whose lines all end in carriage return and line feed is not
    accepted.  The pattern asks for a line feed right after the five
    hyphens that close the BEGIN line, where such a block has a carriage
    return: [parse] returns the empty list. *)
Theorem parse_crlf_block (l b : string) (tr : bool) (n : nat) :
  registered l -> wf_body b = true ->
  parse (pem_block CRLF l b tr) n = inr ([], n).
Proof.
  intros Hl Hb. rewrite parse_unfold. unfold finditer.
  rewrite <- (append_nil_r (pem_block CRLF l b tr)).
  rewrite scan_over_block.
  - reflexivity.
  - now right.
  - now apply registered_dash_free.
  - now apply wf_body_dash_free.
  - now left.
  - destruct Hl as [<-|[<-|[<-|[]]]]; reflexivity.
Qed.

Lemma parse_crlf_block_witness :
  parse (pem_block CRLF "RSA PRIVATE KEY" "MIIB" true) 0 = inr ([], 0).
Proof.
  apply (parse_crlf_block "RSA PRIVATE KEY" "MIIB" true 0).
  - right; left; reflexivity.
  - reflexivity.
Defined.

(** ** Representation and identity of the objects *)

Lemma unescape_repr_char (q c : ascii) (rest : string) :
  q = Str.squote \/ q = Str.dquote ->
  Str.unescape q (Str.repr_char q c ++ rest) = String c (Str.unescape q rest).
Proof.
  intros [-> | ->];
    destruct c as [[] [] [] [] [] [] [] []]; reflexivity.
Qed.

Lemma unescape_repr_chars (q : ascii) (s : string) :
  q = Str.squote \/ q = Str.dquote ->
  Str.unescape q (Str.repr_chars q s ++ String q "") = s.
Proof.
  intros Hq. induction s as [|c s IH]; cbn [Str.repr_chars].
  - cbn. now rewrite Ascii.eqb_refl.
  - rewrite append_assoc, unescape_repr_char by exact Hq. now rewrite IH.
Qed.

Lemma unrepr_repr (s : string) : Str.unrepr (Str.repr s) = s.
Proof.
  unfold Str.repr, Str.unrepr. apply unescape_repr_chars.
  unfold Str.repr_quote. destruct (_ && _); auto.
Qed.

(** C10: for every object, [repr] is the text
    [<ClassName(pem_str=R)>] where [R] is the [repr] of the whole
    [pem_str]; the text of the object, key material included, can be read
    back from it in full, so it is neither a digest nor a truncation. *)
Theorem repr_shows_pem_str (o : object) :
  __repr__ o
  = inr ("<" ++ __name__ (__class__ o) ++ "(pem_str=" ++ Str.repr (pem_str o) ++ ")>")
  /\ Str.unrepr (Str.repr (pem_str o)) = pem_str o.
Proof. split; [reflexivity | apply unrepr_repr]. Qed.

(** C4 (the code departs from it): two objects built from the same class
    and the same text are distinct instances; [_Base] defines no equality
    and no hash of its own, so they compare unequal and hash differently
    although variant and text agree. *)
Theorem equal_contents_distinct_objects (cls : class) (s : string) (n : nat) :
  exists a b,
    (a <- new cls s ;; b <- new cls s ;; ret (a, b)) n = inr ((a, b), S (S n))
    /\ __class__ a = __class__ b /\ pem_str a = pem_str b
    /\ __eq__ a b = false /\ __hash__ a <> __hash__ b.
Proof.
  exists (Object n cls s), (Object (S n) cls s).
  repeat split.
  - apply Nat.eqb_neq. cbn. lia.
  - cbn. lia.
Qed.

(** ** The classifier *)

Section ClassifierProperties.

Variable matches : object -> object -> bool.
Variable fingerprint : object -> string.

Lemma select_leaf_none (k : object) (certs : list object) :
  (forall c, In c certs -> matches k c = false) ->
  select_leaf matches k certs = None.
Proof.
  induction certs as [|c cs IH]; cbn [select_leaf]; [reflexivity|].
  intros H. rewrite (H c) by now left.
  rewrite IH; [reflexivity|]. intros c' Hc'. apply H. now right.
Qed.


(** C5: classification fails with an error that tells what is wrong, and
    returns no partial result: [NoKey] when the objects hold no private
    key, [MultipleKeys] when they hold more than one, and
    [NoMatchingCertificate] when there is one key and there are
    certificates none of which matches the key, the fingerprint of the key
    being part of the error text.  [classify_from_sources] returns what
    [classify] returns on the objects of its sources put end to end, hence
    fails in the same cases. *)
Theorem classify_failures :
  (forall objs,
      filter is_private_key objs = [] ->
      classify matches fingerprint objs = inl NoKey)
  /\ (forall objs,
        1 < length (filter is_private_key objs) ->
        classify matches fingerprint objs = inl MultipleKeys)
  /\ (forall objs k,
        filter is_private_key objs = [k] ->
        filter is_certificate objs <> [] ->
        (forall c, In c objs -> is_certificate c = true -> matches k c = false) ->
        exists msg,
          classify matches fingerprint objs = inl (NoMatchingCertificate msg)
          /\ occurs_in (fingerprint k) msg)
  /\ (forall fs locators n per_source n',
        mapM (parse_file fs) locators n = inr (per_source, n') ->
        classify_from_sources matches fingerprint fs locators n
        = inr (classify matches fingerprint (concat per_source), n')).
Proof.
  repeat split.
  - intros objs H. unfold classify. now rewrite H.
  - intros objs H. unfold classify.
    destruct (filter is_private_key objs) as [|k [|k' ks]]; cbn in H; try lia.
    reflexivity.
  - intros objs k Hk Hc Hm. unfold classify. rewrite Hk.
    destruct (filter is_certificate objs) as [|c cs] eqn:E; [congruence|].
    rewrite select_leaf_none.
    + eexists. split; [reflexivity|].
      exists "No certificate matching ", " found.". reflexivity.
    + intros c' Hc'. rewrite <- E in Hc'.
      apply filter_In in Hc' as [Hin Hcert]. now apply Hm.
  - intros fs locators n per_source n' H.
    unfold classify_from_sources, bind. now rewrite H.
Qed.






End ClassifierProperties.

Lemma classify_failures_witness :
  classify no_match sample_fingerprint [sample_ca1; sample_ca2] = inl NoKey
  /\ classify no_match sample_fingerprint [sample_key; sample_leaf; sample_key]
     = inl MultipleKeys
  /\ (exists msg,
        classify no_match sample_fingerprint [sample_key; sample_ca1; sample_ca2]
        = inl (NoMatchingCertificate msg)
        /\ occurs_in "a94a8fe5ccb19ba6" msg)
  /\ classify_from_sources no_match sample_fingerprint sample_fs
       ["key.pem"; "chain.pem"] 0
     = inr (classify no_match sample_fingerprint
              (concat [[Object 0 RSAPrivateKey (pem_block LF "RSA PRIVATE KEY" "MIIB" true)];
                       [Object 1 Certificate (pem_block LF "CERTIFICATE" "MIIC" true)]]),
            2).
Proof.
  destruct (classify_failures no_match sample_fingerprint) as (H1 & H2 & H3 & H4).
  split; [|split; [|split]].
  - apply H1. reflexivity.
  - apply H2. cbn. lia.
  - apply (H3 _ sample_key).
    + reflexivity.
    + discriminate.
    + reflexivity.
  - apply H4. reflexivity.
Defined.



(** * Further properties of [parse] and [__repr__] *)

(** ** Objects built from matches *)

Lemma mapM_make_inv (ms : list re_match) :
  forall n objs n',
  mapM make ms n = inr (objs, n') ->
  n' = n + length ms
  /\ map id objs = seq n (length ms)
  /\ Forall2 made ms objs.
Proof.
  induction ms as [|m ms IH]; intros n objs n' H.
  - cbn in H. injection H as <- <-. rewrite Nat.add_0_r. repeat split. constructor.
  - cbn [mapM] in H. unfold bind at 1 in H.
    destruct (make m n) as [e|[o n1]] eqn:E; [discriminate|].
    unfold bind at 1 in H.
    destruct (mapM make ms n1) as [e|[os n2]] eqn:E2; [discriminate|].
    cbn in H. injection H as <- <-.
    unfold make, bind in E.
    destruct (getitem _PEM_TO_CLASS (group1 m)) as [e|cls] eqn:G;
      cbn in E; [discriminate|].
    injection E as <- <-.
    destruct (IH _ _ _ E2) as (-> & Hid & Hmade).
    cbn [length map seq id]. rewrite Hid, <- plus_n_Sm.
    repeat split. constructor; [|exact Hmade].
    split; [reflexivity | exact G].
Qed.

Lemma parse_inv (s : string) (n : nat) (objs : list object) (n' : nat) :
  parse s n = inr (objs, n') ->
  length objs = length (finditer _PEM_RE s)
  /\ n' = n + length objs
  /\ map id objs = seq n (length objs)
  /\ Forall2 made (finditer _PEM_RE s) objs.
Proof.
  rewrite parse_unfold. intros H.
  destruct (mapM_make_inv _ _ _ _ H) as (Hn & Hid & Hm).
  pose proof (Forall2_length Hm) as L.
  rewrite <- L in *. auto.
Qed.

Lemma Forall2_made_in (ms : list re_match) (objs : list object) (o : object) :
  Forall2 made ms objs -> In o objs -> exists m, In m ms /\ made m o.
Proof.
  induction 1 as [|m o' ms objs Hm _ IH]; intros Hin; [contradiction|].
  destruct Hin as [<-|Hin].
  - exists m. split; [now left|exact Hm].
  - destruct (IH Hin) as (m' & Hm' & Hmo). exists m'. split; [now right|exact Hmo].
Qed.

(** X2: the objects of one call are fresh instances: their identities are
    the next free ones, in order, so that two of them are equal for [==]
    only when they are one and the same element of the result, whatever
    their texts. *)
Theorem parse_fresh_identities
        (s : string) (n : nat) (objs : list object) (n' : nat) :
  parse s n = inr (objs, n') ->
  n' = n + length objs
  /\ map id objs = seq n (length objs)
  /\ (forall i j a b,
        nth_error objs i = Some a -> nth_error objs j = Some b ->
        __eq__ a b = Nat.eqb i j).
Proof.
  intros H. destruct (parse_inv _ _ _ _ H) as (_ & Hn & Hid & _).
  repeat split; [exact Hn|exact Hid|].
  assert (K : forall i a, nth_error objs i = Some a -> id a = n + i).
  { intros i a Ha.
    assert (Hi : i < length objs) by (apply nth_error_Some; congruence).
    pose proof (map_nth_error id _ _ Ha) as Hm. rewrite Hid in Hm.
    apply (nth_error_nth _ _ 0) in Hm. rewrite seq_nth in Hm by exact Hi.
    congruence. }
  intros i j a b Ha Hb. unfold __eq__. rewrite (K _ _ Ha), (K _ _ Hb).
  destruct (Nat.eqb_spec i j) as [->|Hij].
  - apply Nat.eqb_refl.
  - apply Nat.eqb_neq. lia.
Qed.

Lemma parse_fresh_identities_witness :
  let cert := pem_block LF "CERTIFICATE" "MIIC" true in
  __eq__ (Object 5 Certificate cert) (Object 6 Certificate cert) = false.
Proof.
  intros cert.
  destruct (parse_fresh_identities (cert ++ cert) 5
              [Object 5 Certificate cert; Object 6 Certificate cert] 7 eq_refl)
    as (_ & _ & H).
  exact (H 0 1 _ _ eq_refl eq_refl).
Defined.

(** ** The class of an object *)

Lemma pem_block_label_inj (l l' b b' : string) (tr tr' : bool) :
  dash_free l = true -> dash_free l' = true ->
  pem_block LF l b tr = pem_block LF l' b' tr' -> l = l'.
Proof.
  intros Hl Hl' E. unfold pem_block in E.
  cbn [append] in E. injection E as E.
  set (x := "----" ++ LF ++ b ++ LF ++ "-----END " ++ l ++ "-----"
              ++ (if tr then LF else "")).
  set (x' := "----" ++ LF ++ b' ++ LF ++ "-----END " ++ l' ++ "-----"
               ++ (if tr' then LF else "")).
  apply (strip_prefix_labels l l' "" x'); [exact Hl|exact Hl'|].
  assert (E' : l' ++ String "-" x' = (l ++ String "-" "") ++ x)
    by (rewrite append_assoc; symmetry; exact E).
  rewrite E', strip_prefix_app. discriminate.
Qed.

(** X3: the class of every object [parse] returns is the one the label of
    its own BEGIN line stands for in the registry.  It is never the base
    class [Key]: a key object is an [RSAPrivateKey], and an object is a key
    exactly when its label is RSA PRIVATE KEY. *)
Theorem parse_class_by_label
        (s : string) (n : nat) (objs : list object) (n' : nat) (o : object) :
  parse s n = inr (objs, n') -> In o objs ->
  __class__ o <> Key
  /\ (exists l b tr, registered l /\ pem_str o = pem_block LF l b tr)
  /\ (forall l b tr,
        wf_label l = true -> pem_str o = pem_block LF l b tr ->
        variant_of_label l = Some (__class__ o)
        /\ is_key_class (__class__ o) = String.eqb l "RSA PRIVATE KEY").
Proof.
  intros H Ho. destruct (parse_inv _ _ _ _ H) as (_ & _ & _ & Hm).
  destruct (Forall2_made_in _ _ _ Hm Ho) as (m & Hin & Ht & Hc).
  pose proof (finditer_block_match s) as Hf. rewrite Forall_forall in Hf.
  destruct (Hf m Hin) as (l0 & b0 & tr0 & Hl0 & _ & H0 & H1).
  rewrite H1 in Hc.
  destruct (getitem_registered _ Hl0) as (cls & Hg & Hv).
  assert (Hcls : cls = __class__ o) by congruence. subst cls.
  assert (K : __class__ o <> Key
              /\ is_key_class (__class__ o) = String.eqb l0 "RSA PRIVATE KEY").
  { destruct Hl0 as [<-|[<-|[<-|[]]]]; cbn in Hv; injection Hv as <-;
      split; (discriminate || reflexivity). }
  split; [apply K|]. split.
  - exists l0, b0, tr0. split; [exact Hl0|congruence].
  - intros l b tr Hl E.
    assert (l = l0).
    { apply (pem_block_label_inj l l0 b b0 tr tr0);
        [exact Hl|now apply registered_dash_free|congruence]. }
    subst l. split; [exact Hv|apply K].
Qed.

Lemma parse_class_by_label_witness :
  variant_of_label "RSA PRIVATE KEY" = Some RSAPrivateKey
  /\ is_key_class RSAPrivateKey = String.eqb "RSA PRIVATE KEY" "RSA PRIVATE KEY".
Proof.
  pose (k := pem_block LF "RSA PRIVATE KEY" "MIIB" true).
  destruct (parse_class_by_label k 0 [Object 0 RSAPrivateKey k] 1
              (Object 0 RSAPrivateKey k) eq_refl (or_introl eq_refl))
    as (_ & _ & H).
  exact (H "RSA PRIVATE KEY" "MIIB" true eq_refl eq_refl).
Defined.

(** ** The texts of the objects within the input *)

Lemma match_here_sound (r : regex) (x : string) (m : re_match) :
  match_here r x = Some m -> exists post, x = group0 m ++ post.
Proof.
  unfold match_here. destruct (run r None x) as [|t tl] eqn:E; [discriminate|].
  intros [= <-]. exists (rest t). cbn [group0].
  apply (run_sound r None). rewrite E. now left.
Qed.

Lemma drop_app (p s : string) : drop (String.length p) (p ++ s) = s.
Proof. induction p as [|c p IH]; [now destruct s | exact IH]. Qed.

Lemma append_eq_empty (a b : string) : "" = a ++ b -> a = "" /\ b = "".
Proof. destruct a; [cbn; auto | discriminate]. Qed.

Lemma scan_weave (r : regex) (s : string) :
  forall k, exists g0 gs,
    length gs = length (scan r k s)
    /\ drop k s = g0 ++ weave (combine (map group0 (scan r k s)) gs).
Proof.
  induction s as [|c s IH]; intros k.
  - destruct k as [|k]; cbn [scan drop]; [|now exists "", []].
    destruct (match_here r "") as [m|] eqn:E; [|now exists "", []].
    destruct (match_here_sound _ _ _ E) as (post & Hp).
    apply append_eq_empty in Hp as [H0 ->].
    exists "", [""]. split; [reflexivity|]. cbn. now rewrite H0.
  - destruct k as [|k]; cbn [scan drop].
    + destruct (match_here r (String c s)) as [m|] eqn:E.
      * destruct (match_here_sound _ _ _ E) as (post & Hp).
        destruct (group0 m) as [|c0 p] eqn:G; cbn [String.length pred].
        -- destruct (IH 0) as (g0 & gs & L & W). cbn [drop] in W.
           exists "", (String c g0 :: gs). split; [cbn; now rewrite L|].
           cbn [map combine length]. rewrite G. unfold weave in *.
           cbn [map join fold_right fst snd append]. f_equal. exact W.
        -- cbn [append] in Hp. injection Hp as <- ->.
           destruct (IH (String.length p)) as (g0 & gs & L & W).
           rewrite drop_app in W.
           exists "", (g0 :: gs). split; [cbn; now rewrite L|].
           cbn [map combine length]. rewrite G. unfold weave in *.
           cbn [map join fold_right fst snd append].
           rewrite append_assoc. do 2 f_equal. exact W.
      * destruct (IH 0) as (g0 & gs & L & W). cbn [drop] in W.
        exists (String c g0), gs. split; [exact L|].
        cbn [append]. f_equal. exact W.
    + apply IH.
Qed.

Lemma Forall2_made_texts (ms : list re_match) (objs : list object) :
  Forall2 made ms objs -> map __str__ objs = map group0 ms.
Proof.
  induction 1 as [|m o ms objs [Ht _] _ IH]; [reflexivity|].
  cbn [map]. unfold __str__ at 1. now rewrite Ht, IH.
Qed.

(** X4: the texts of the objects lie in the input in the order of the
    result and do not overlap: the input is some text [g0], then the text
    of the first object, then some text, then the text of the second
    object, and so on to the end. *)
Theorem parse_texts_in_order
        (s : string) (n : nat) (objs : list object) (n' : nat) :
  parse s n = inr (objs, n') ->
  exists g0 gs,
    length gs = length objs
    /\ s = g0 ++ weave (combine (map __str__ objs) gs).
Proof.
  intros H. destruct (parse_inv _ _ _ _ H) as (L & _ & _ & Hm).
  destruct (scan_weave _PEM_RE s 0) as (g0 & gs & Lg & W).
  exists g0, gs. rewrite (Forall2_made_texts _ _ Hm). split.
  - rewrite L. exact Lg.
  - exact W.
Qed.

Lemma parse_texts_in_order_witness :
  let cert := pem_block LF "CERTIFICATE" "MIIC" true in
  let key := pem_block LF "RSA PRIVATE KEY" "MIIB" false in
  exists g0 gs,
    length gs = 2
    /\ "subject=/CN=example" ++ LF ++ cert ++ "issuer" ++ key
       = g0 ++ weave (combine [cert; key] gs).
Proof.
  intros cert key.
  exact (parse_texts_in_order
           ("subject=/CN=example" ++ LF ++ cert ++ "issuer" ++ key) 0
           [Object 0 Certificate cert; Object 1 RSAPrivateKey key] 2 eq_refl).
Defined.

(** ** The first thread of [_PEM_RE] *)

(** The head of the threads of [.+? K] comes from the shortest split after
    which [K] succeeds. *)
Lemma lazy_first_inv (s : string) :
  forall (F : string -> string -> list thread) t0 tl,
  flat_map (fun ms => F (fst ms) (snd ms)) (any_plus_lazy s) = t0 :: tl ->
  exists m1 m2 tl',
    s = m1 ++ m2 /\ m1 <> "" /\ F m1 m2 = t0 :: tl'
    /\ (forall a c, m1 = a ++ c -> a <> "" -> c <> "" -> F a (c ++ m2) = []).
Proof.
  induction s as [|c s IH]; intros F t0 tl H; [discriminate|].
  cbn [any_plus_lazy flat_map fst snd] in H. rewrite flat_map_map in H.
  cbn [fst snd] in H.
  destruct (F (String c "") s) as [|t l] eqn:E0.
  - cbn [app] in H.
    destruct (IH (fun m r => F (String c m) r) t0 tl H)
      as (m1 & m2 & tl' & -> & Hm1 & HF & Hmin).
    exists (String c m1), m2, tl'. repeat split; [discriminate|exact HF|].
    intros a c0 Ha Hna Hnc. destruct a as [|x a]; [congruence|].
    cbn [append] in Ha. injection Ha as <- ->.
    destruct a as [|y a].
    + exact E0.
    + apply Hmin; [reflexivity|discriminate|exact Hnc].
  - cbn [app] in H. injection H as <- <-.
    exists (String c ""), s, l. repeat split; [discriminate|exact E0|].
    intros a c0 Ha Hna Hnc. destruct a as [|x a]; [congruence|].
    cbn [append] in Ha. injection Ha as _ Ha.
    destruct a; [cbn in Ha; congruence|discriminate].
Qed.

Lemma run_Seq_Lit_gen (l : string) (r : regex) (g : option string) (s : string) :
  run (Seq (Lit l) r) g s
  = match strip_prefix l s with
    | Some s' => map (extend l) (run r g s')
    | None => []
    end.
Proof.
  cbn [run]. destruct (strip_prefix l s); [|reflexivity].
  cbn [flat_map taken rest captured]. apply app_nil_r.
Qed.

Lemma run_Seq_Backref_gen (l : string) (r : regex) (s : string) :
  run (Seq Backref1 r) (Some l) s
  = match strip_prefix l s with
    | Some s' => map (extend l) (run r (Some l) s')
    | None => []
    end.
Proof.
  cbn [run]. destruct (strip_prefix l s); [|reflexivity].
  cbn [flat_map taken rest captured]. apply app_nil_r.
Qed.

(** At most one label of the registry starts a given text. *)
Lemma run_labels_cases (g : option string) (s : string) :
  run (Group1 (alternation (keys _PEM_TO_CLASS))) g s = []
  \/ exists l s',
       registered l /\ s = l ++ s'
       /\ run (Group1 (alternation (keys _PEM_TO_CLASS))) g s
          = [Thread l s' (Some l)].
Proof.
  change (keys _PEM_TO_CLASS)
    with ["CERTIFICATE"; "RSA PRIVATE KEY"; "DH PARAMETERS"].
  unfold registered.
  change (keys _PEM_TO_CLASS)
    with ["CERTIFICATE"; "RSA PRIVATE KEY"; "DH PARAMETERS"].
  cbn [alternation run].
  destruct (strip_prefix "CERTIFICATE" s) as [a|] eqn:EC.
  - right. apply strip_prefix_Some in EC. subst s.
    exists "CERTIFICATE", a. cbn. auto.
  - destruct (strip_prefix "RSA PRIVATE KEY" s) as [a|] eqn:ER.
    + right. apply strip_prefix_Some in ER. subst s.
      exists "RSA PRIVATE KEY", a. cbn. auto.
    + destruct (strip_prefix "DH PARAMETERS" s) as [a|] eqn:ED.
      * right. apply strip_prefix_Some in ED. subst s.
        exists "DH PARAMETERS", a. cbn. auto.
      * now left.
Qed.

(** The head of the threads of the END line: the line, with the line feed
    that follows it when there is one. *)
Lemma run_end_line_hd (l x : string) (t : thread) (tl : list thread) :
  run end_line (Some l) x = t :: tl ->
  exists (tr : bool) (post : string),
    x = LF ++ "-----END " ++ l ++ "-----" ++ (if tr then LF else "") ++ post
    /\ t = Thread (LF ++ "-----END " ++ l ++ "-----" ++ (if tr then LF else ""))
                  post (Some l)
    /\ (tr = false -> strip_prefix LF post = None).
Proof.
  unfold end_line. rewrite run_Seq_Lit_gen.
  destruct (strip_prefix (LF ++ "-----END ") x) as [x1|] eqn:E1; [|discriminate].
  apply strip_prefix_Some in E1. subst x.
  rewrite run_Seq_Backref_gen.
  destruct (strip_prefix l x1) as [x2|] eqn:E2; [|discriminate].
  apply strip_prefix_Some in E2. subst x1.
  rewrite run_Seq_Lit_gen.
  destruct (strip_prefix "-----" x2) as [x3|] eqn:E3; [|discriminate].
  apply strip_prefix_Some in E3. subst x2.
  cbn [run].
  destruct (strip_prefix LF x3) as [x4|] eqn:E4.
  - apply strip_prefix_Some in E4. subst x3.
    cbn [app map]. intros [= <- _]. exists true, x4.
    split; [reflexivity|]. split; [reflexivity|discriminate].
  - cbn [app map]. intros [= <- _]. exists false, x3.
    split; [reflexivity|]. split; [reflexivity|now intros _].
Qed.

Lemma run_end_line_nonempty (l w : string) :
  run end_line (Some l) (LF ++ "-----END " ++ l ++ "-----" ++ w) <> [].
Proof.
  unfold end_line.
  change (LF ++ "-----END " ++ ?x) with ((LF ++ "-----END ") ++ x).
  rewrite run_Seq_Lit, run_Seq_Backref, run_Seq_Lit. cbn [run].
  destruct (strip_prefix LF w); cbn [app map]; discriminate.
Qed.

(** What the match at the head of a text is: a block with a registered
    label, whose body stops before the first END line of that label, with
    the line feed after the END line when there is one. *)
Lemma match_here_inv (s : string) (m : re_match) :
  match_here _PEM_RE s = Some m ->
  exists (l b : string) (tr : bool) (post : string),
    registered l /\ b <> ""
    /\ s = pem_block LF l b tr ++ post
    /\ m = ReMatch (pem_block LF l b tr) (Some l)
    /\ (forall a c, b = a ++ c -> a <> "" -> c <> "" ->
          run end_line (Some l)
              (c ++ LF ++ "-----END " ++ l ++ "-----"
                 ++ (if tr then LF else "") ++ post) = [])
    /\ (tr = false -> strip_prefix LF post = None).
Proof.
  unfold match_here.
  destruct (run _PEM_RE None s) as [|t tl] eqn:E; [discriminate|].
  intros [= <-]. rewrite _PEM_RE_unfold, run_Seq_Lit_gen in E.
  destruct (strip_prefix "-----BEGIN " s) as [s1|] eqn:P1; [|discriminate].
  apply strip_prefix_Some in P1. subst s.
  cbn [run] in E. fold (run (Group1 (alternation (keys _PEM_TO_CLASS))) None s1) in E.
  destruct (run_labels_cases None s1) as [R|(l & s2 & Hl & -> & R)];
    cbn [run] in R; rewrite R in E; [discriminate|].
  cbn [flat_map taken rest captured] in E. rewrite app_nil_r in E.
  destruct (strip_prefix ("-----" ++ LF) s2) as [s3|] eqn:P3; [|discriminate].
  apply strip_prefix_Some in P3. subst s2.
  cbn [flat_map taken rest captured] in E. rewrite app_nil_r in E.
  rewrite flat_map_map in E. cbn [taken rest captured] in E.
  destruct (flat_map _ (any_plus_lazy s3)) as [|t3 tl3] eqn:E3; [discriminate|].
  cbn [map] in E. injection E as <- _.
  destruct (lazy_first_inv s3
              (fun m r => map (extend m) (run end_line (Some l) r)) t3 tl3 E3)
    as (b & m2 & tl' & -> & Hb & HF & Hmin).
  destruct (run end_line (Some l) m2) as [|t4 tl4] eqn:E4; [discriminate|].
  cbn [map] in HF. injection HF as <- _.
  destruct (run_end_line_hd _ _ _ _ E4) as (tr & post & -> & -> & Hpost).
  exists l, b, tr, post.
  split; [exact Hl|]. split; [exact Hb|].
  split; [now rewrite pem_block_app|].
  split; [reflexivity|]. split; [|exact Hpost].
  intros a c Hac Ha Hc. pose proof (Hmin a c Hac Ha Hc) as H.
  apply map_eq_nil in H. exact H.
Qed.

(** The converse: such a block is what the pattern matches at its head. *)
Lemma match_here_intro (l b : string) (tr : bool) (post : string) :
  registered l -> b <> "" ->
  (forall a c, b = a ++ c -> a <> "" -> c <> "" ->
     run end_line (Some l)
         (c ++ LF ++ "-----END " ++ l ++ "-----"
            ++ (if tr then LF else "") ++ post) = []) ->
  (tr = false -> strip_prefix LF post = None) ->
  match_here _PEM_RE (pem_block LF l b tr ++ post)
  = Some (ReMatch (pem_block LF l b tr) (Some l)).
Proof.
  intros Hl Hb Hmin Hpost. destruct b as [|c b]; [congruence|].
  unfold match_here.
  rewrite pem_block_app, _PEM_RE_unfold.
  rewrite run_Seq_Lit, run_Seq_labels by exact Hl.
  change ("-----" ++ LF ++ ?x) with (("-----" ++ LF) ++ x).
  rewrite run_Seq_Lit.
  cbn [run]. rewrite flat_map_map. cbn [taken rest captured].
  destruct (any_plus_lazy_first b c
              (fun m r => map (extend m) (run end_line (Some l) r))
              (LF ++ "-----END " ++ l ++ "-----" ++ (if tr then LF else "") ++ post))
    as [tl Htl].
  - intros m1 m2 E H1 H2. now rewrite (Hmin m1 m2 E H1 H2).
  - cbn [fst snd] in Htl.
    change (String c b ++ LF ++ ?x) with (String c (b ++ LF ++ x)) in Htl |- *.
    rewrite Htl.
    destruct (run_end_line l tr post Hpost) as [tl' ->].
    reflexivity.
Qed.

(** A thread stays a thread when text is appended to the input. *)
Lemma strip_prefix_mono (p x x' z : string) :
  strip_prefix p x = Some x' -> strip_prefix p (x ++ z) = Some (x' ++ z).
Proof.
  intros H. apply strip_prefix_Some in H. subst x.
  now rewrite append_assoc, strip_prefix_app.
Qed.

Lemma any_plus_lazy_mono (x z m r : string) :
  In (m, r) (any_plus_lazy x) -> In (m, r ++ z) (any_plus_lazy (x ++ z)).
Proof.
  revert m r. induction x as [|c x IH]; intros m r; cbn [any_plus_lazy append];
    [contradiction|].
  intros [H|H].
  - injection H as <- <-. now left.
  - right. apply in_map_iff in H as ([m' r'] & E & H).
    cbn [fst snd] in E. injection E as <- <-.
    apply in_map_iff. exists (m', r' ++ z). split; [reflexivity|now apply IH].
Qed.

Lemma run_mono (r : regex) (z : string) :
  forall g x t,
  In t (run r g x) ->
  In (Thread (taken t) (rest t ++ z) (captured t)) (run r g (x ++ z)).
Proof.
  induction r as [l|r1 IH1 r2 IH2|r1 IH1 r2 IH2|r1 IH1| | |r1 IH1];
    intros g x t H; cbn [run] in *.
  - destruct (strip_prefix l x) as [x'|] eqn:E; [|contradiction].
    rewrite (strip_prefix_mono _ _ _ z E).
    destruct H as [<-|[]]. now left.
  - apply in_flat_map in H as (t1 & H1 & H2).
    apply in_map_iff in H2 as (t2 & <- & H2).
    apply in_flat_map.
    exists (Thread (taken t1) (rest t1 ++ z) (captured t1)).
    split; [now apply IH1|]. cbn [taken rest captured].
    apply in_map_iff.
    exists (Thread (taken t2) (rest t2 ++ z) (captured t2)).
    split; [reflexivity|now apply IH2].
  - apply in_or_app. apply in_app_or in H as [H|H]; [left|right]; auto.
  - apply in_map_iff in H as (t1 & <- & H1).
    apply in_map_iff.
    exists (Thread (taken t1) (rest t1 ++ z) (captured t1)).
    split; [reflexivity|now apply IH1].
  - destruct g as [l|]; [|contradiction].
    destruct (strip_prefix l x) as [x'|] eqn:E; [|contradiction].
    rewrite (strip_prefix_mono _ _ _ z E).
    destruct H as [<-|[]]. now left.
  - apply in_map_iff in H as ([m r] & <- & H).
    apply in_map_iff. exists (m, r ++ z).
    split; [reflexivity|now apply any_plus_lazy_mono].
  - apply in_or_app. apply in_app_or in H as [H|[<-|[]]].
    + left. now apply IH1.
    + right. now left.
Qed.

Lemma run_nil_mono (r : regex) (g : option string) (x z : string) :
  run r g (x ++ z) = [] -> run r g x = [].
Proof.
  intros H. destruct (run r g x) as [|t tl] eqn:E; [reflexivity|].
  exfalso. assert (Ht : In t (run r g x)) by (rewrite E; now left).
  apply (run_mono r z) in Ht. now rewrite H in Ht.
Qed.

(** Every match of the scanner is the match at the head of a suffix of the
    text. *)
Lemma in_scan_here (r : regex) (s : string) :
  forall k m, In m (scan r k s) ->
  exists pre x, s = pre ++ x /\ match_here r x = Some m.
Proof.
  induction s as [|c s IH]; intros k m; cbn [scan].
  - destruct k; [|contradiction].
    destruct (match_here r "") as [m0|] eqn:E; [|contradiction].
    intros [<-|[]]. now exists "", "".
  - assert (Tail : In m (scan r 0 s) \/ (exists k', In m (scan r k' s)) ->
                   exists pre x, String c s = pre ++ x /\ match_here r x = Some m).
    { intros H. assert (H' : exists k', In m (scan r k' s))
        by (destruct H as [H|H]; [now exists 0|exact H]).
      destruct H' as (k' & H').
      destruct (IH _ _ H') as (pre & x & -> & Hx).
      now exists (String c pre), x. }
    destruct k as [|k].
    + destruct (match_here r (String c s)) as [m0|] eqn:E.
      * intros [<-|H]; [now exists "", (String c s)|].
        apply Tail. right. eauto.
      * intros H. apply Tail. now left.
    + intros H. apply Tail. right. eauto.
Qed.

(** The match behind an object of the result. *)
Lemma parse_object_match
      (s : string) (n : nat) (objs : list object) (n' : nat) (o : object) :
  parse s n = inr (objs, n') -> In o objs ->
  exists pre (l b : string) (tr : bool) (post : string),
    s = pre ++ pem_block LF l b tr ++ post
    /\ registered l /\ b <> ""
    /\ pem_str o = pem_block LF l b tr
    /\ getitem _PEM_TO_CLASS (Some l) = inr (__class__ o)
    /\ (forall a c, b = a ++ c -> a <> "" -> c <> "" ->
          run end_line (Some l)
              (c ++ LF ++ "-----END " ++ l ++ "-----"
                 ++ (if tr then LF else "") ++ post) = [])
    /\ (tr = false -> strip_prefix LF post = None).
Proof.
  intros H Ho. destruct (parse_inv _ _ _ _ H) as (_ & _ & _ & Hm).
  destruct (Forall2_made_in _ _ _ Hm Ho) as (m & Hin & Ht & Hc).
  apply in_scan_here in Hin as (pre & x & -> & Hx).
  destruct (match_here_inv _ _ Hx) as (l & b & tr & post & Hl & Hb & -> & -> & Hmin & Hp).
  cbn [group0 group1] in *.
  exists pre, l, b, tr, post. auto 10.
Qed.

(** ** Parsing the text of an object again *)

(** X5: the text of every object [parse] returns parses back to exactly one
    object of the same class and the same text, whatever the input the
    object came from. *)
Theorem parse_reparse
        (s : string) (n : nat) (objs : list object) (n' : nat)
        (o : object) (k : nat) :
  parse s n = inr (objs, n') -> In o objs ->
  parse (__str__ o) k = inr ([Object k (__class__ o) (pem_str o)], S k).
Proof.
  intros H Ho.
  destruct (parse_object_match _ _ _ _ _ H Ho)
    as (pre & l & b & tr & post & _ & Hl & Hb & Ht & Hg & Hmin & _).
  unfold __str__. rewrite Ht.
  assert (M : match_here _PEM_RE (pem_block LF l b tr ++ "")
              = Some (ReMatch (pem_block LF l b tr) (Some l))).
  { apply match_here_intro; [exact Hl|exact Hb| |reflexivity].
    intros a c E Ha Hc. apply (run_nil_mono _ _ _ post).
    rewrite <- (Hmin a c E Ha Hc). f_equal.
    rewrite !append_assoc. reflexivity. }
  rewrite parse_unfold. unfold finditer.
  rewrite <- (append_nil_r (pem_block LF l b tr)) at 1.
  rewrite (scan_match _ _ _ _ (pem_block_nonempty _ _ _ _) M).
  cbn [scan]. change (match_here _PEM_RE "") with (@None re_match).
  cbn [mapM]. unfold bind, make, bind. cbn [group0 group1].
  rewrite Hg. reflexivity.
Qed.

Lemma parse_reparse_witness :
  let text := pem_block LF "CERTIFICATE"
                ("MIIC" ++ LF ++ "-----BEGIN DH PARAMETERS-----" ++ LF ++ "MIID") true in
  parse text 9 = inr ([Object 9 Certificate text], 10).
Proof.
  intros text.
  exact (parse_reparse ("leading text" ++ text ++ "trailing text") 0
           [Object 0 Certificate text] 1 (Object 0 Certificate text) 9
           eq_refl (or_introl eq_refl)).
Defined.

(** ** How far the text of an object reaches *)

(** X10: the body of every object stops at the first END line of its
    label: read as a block with a non-empty body, the text of the object
    holds no END line of that label that starts inside the body, the first
    character of the body apart. *)
Theorem parse_body_first_end_line
        (s : string) (n : nat) (objs : list object) (n' : nat) (o : object) :
  parse s n = inr (objs, n') -> In o objs ->
  exists l b tr,
    registered l /\ b <> ""
    /\ pem_str o = pem_block LF l b tr
    /\ first_end_line l b.
Proof.
  intros H Ho.
  destruct (parse_object_match _ _ _ _ _ H Ho)
    as (pre & l & b & tr & post & _ & Hl & Hb & Ht & _ & Hmin & _).
  exists l, b, tr. repeat split; try assumption.
  intros a c E Ha Hc.
  destruct (strip_prefix _ _) as [y|] eqn:Hy; [exfalso|reflexivity].
  apply strip_prefix_Some in Hy.
  apply (run_end_line_nonempty l (y ++ (if tr then LF else "") ++ post)).
  rewrite <- (Hmin a c E Ha Hc). f_equal.
  transitivity ((c ++ LF ++ "-----END " ++ l ++ "-----")
                  ++ (if tr then LF else "") ++ post).
  - rewrite Hy, !append_assoc. reflexivity.
  - rewrite !append_assoc. reflexivity.
Qed.

Lemma parse_body_first_end_line_witness :
  exists l b tr,
    registered l /\ b <> ""
    /\ pem_block LF "DH PARAMETERS" "MIID" true = pem_block LF l b tr
    /\ first_end_line l b.
Proof.
  pose (dh := pem_block LF "DH PARAMETERS" "MIID" true).
  exact (parse_body_first_end_line
           (dh ++ "-----END DH PARAMETERS-----") 3
           [Object 3 DHParameters dh] 4 (Object 3 DHParameters dh)
           eq_refl (or_introl eq_refl)).
Defined.

(** X11: a line feed that follows the END line belongs to the object: at
    the place of the input where the text of an object stands, either the
    text ends with a line feed or what follows it does not start with
    one. *)
Theorem parse_takes_line_feed
        (s : string) (n : nat) (objs : list object) (n' : nat) (o : object) :
  parse s n = inr (objs, n') -> In o objs ->
  exists pre post,
    s = pre ++ __str__ o ++ post
    /\ ((exists t, __str__ o = t ++ LF) \/ strip_prefix LF post = None).
Proof.
  intros H Ho.
  destruct (parse_object_match _ _ _ _ _ H Ho)
    as (pre & l & b & tr & post & Hs & _ & _ & Ht & _ & _ & Hp).
  exists pre, post. unfold __str__. rewrite Ht. split; [exact Hs|].
  destruct tr.
  - left. exists (pem_block LF l b false).
    rewrite pem_block_app. reflexivity.
  - right. now apply Hp.
Qed.

Lemma parse_takes_line_feed_witness :
  let key := pem_block LF "RSA PRIVATE KEY" "MIIB" false in
  exists pre post,
    key ++ LF ++ LF ++ "notes" = pre ++ (key ++ LF) ++ post
    /\ ((exists t, key ++ LF = t ++ LF) \/ strip_prefix LF post = None).
Proof.
  intros key.
  exact (parse_takes_line_feed (key ++ LF ++ LF ++ "notes") 0
           [Object 0 RSAPrivateKey (key ++ LF)] 1
           (Object 0 RSAPrivateKey (key ++ LF)) eq_refl (or_introl eq_refl)).
Defined.

(** ** Blocks are not missed *)

Lemma in_any_plus_lazy_app (b t : string) :
  b <> "" -> In (b, t) (any_plus_lazy (b ++ t)).
Proof.
  destruct b as [|c b]; [congruence|]. intros _. revert c.
  induction b as [|c' b IH]; intros c; cbn [append any_plus_lazy].
  - now left.
  - right. apply in_map_iff. exists (String c' b, t).
    split; [reflexivity|]. apply IH.
Qed.

Lemma match_here_block (l b post : string) :
  registered l -> b <> "" ->
  match_here _PEM_RE
    ("-----BEGIN " ++ l ++ "-----" ++ LF ++ b ++ LF
       ++ "-----END " ++ l ++ "-----" ++ post) <> None.
Proof.
  intros Hl Hb. unfold match_here.
  destruct (run _PEM_RE None _) as [|t0 tl0] eqn:E; [exfalso|discriminate].
  rewrite _PEM_RE_unfold, run_Seq_Lit, run_Seq_labels in E by exact Hl.
  change ("-----" ++ LF ++ ?x) with (("-----" ++ LF) ++ x) in E.
  rewrite run_Seq_Lit in E. cbn [run] in E. rewrite flat_map_map in E.
  cbn [taken rest captured] in E.
  do 3 apply map_eq_nil in E.
  set (tail := LF ++ "-----END " ++ l ++ "-----" ++ post) in *.
  destruct (run end_line (Some l) tail) as [|t tl] eqn:Et;
    [now apply (run_end_line_nonempty l post)|].
  assert (Hin : In (extend b t)
                   (flat_map (fun ms : string * string =>
                                map (extend (fst ms)) (run end_line (Some l) (snd ms)))
                             (any_plus_lazy (b ++ tail)))).
  { apply in_flat_map. exists (b, tail).
    split; [now apply in_any_plus_lazy_app|].
    cbn [fst snd]. rewrite Et. now left. }
  now rewrite E in Hin.
Qed.

Lemma scan_finds (r : regex) (x : string) :
  match_here r x <> None ->
  forall pre k, k <= String.length pre -> scan r k (pre ++ x) <> [].
Proof.
  intros Hx. induction pre as [|c pre IH]; intros k Hk.
  - cbn in Hk. assert (k = 0) by lia. subst k. cbn [append].
    destruct x as [|c x]; cbn [scan];
      destruct (match_here r _); [discriminate|congruence|discriminate|congruence].
  - cbn [append scan]. destruct k as [|k].
    + destruct (match_here r (String c (pre ++ x))); [discriminate|].
      apply IH. lia.
    + apply IH. cbn in Hk. lia.
Qed.

(** X12: no block is missed.  [parse] returns at least one object exactly
    when a block occurs in the text: a BEGIN line with a registered label,
    at least one character, and an END line with the same label. *)
Theorem parse_finds_block (s : string) (n : nat) :
  contains_block s <-> exists o objs n', parse s n = inr (o :: objs, n').
Proof.
  split.
  - intros (pre & l & b & post & Hl & Hb & ->).
    pose proof (scan_finds _PEM_RE _ (match_here_block l b post Hl Hb) pre 0
                  (Nat.le_0_l _)) as Hne.
    rewrite parse_unfold. unfold finditer.
    destruct (mapM_make_ok _ (finditer_block_match
                (pre ++ "-----BEGIN " ++ l ++ "-----" ++ LF ++ b ++ LF
                   ++ "-----END " ++ l ++ "-----" ++ post)) n)
      as (objs & Hm & Hs).
    unfold finditer in Hm, Hs. rewrite Hm.
    destruct objs as [|o objs].
    + exfalso. destruct (scan _PEM_RE 0 _); [congruence|discriminate].
    + eauto.
  - intros (o & objs & n' & H).
    destruct (parse_inv _ _ _ _ H) as (L & _).
    destruct (finditer _PEM_RE s) as [|m ms] eqn:E; [discriminate|].
    apply (finditer_contains_block s m). rewrite E. now left.
Qed.

(** ** Blocks with other text around them *)

Lemma strip_prefix_LF_app (g r : string) :
  strip_prefix LF g = None ->
  (g = "" -> strip_prefix LF r = None) ->
  strip_prefix LF (g ++ r) = None.
Proof.
  destruct g as [|c g]; cbn [append]; [auto|].
  intros H _. cbn -[Ascii.eqb] in *. now destruct (Ascii.eqb _ c).
Qed.

Lemma join_items_no_LF (items : list (block * string)) (tail : string) :
  strip_prefix LF tail = None ->
  strip_prefix LF (join (map item_text items) ++ tail) = None.
Proof. destruct items as [|[b g] items]; [now cbn|reflexivity]. Qed.

Lemma scan_items (items : list (block * string)) (tail : string) :
  Forall wf_item items ->
  strip_prefix LF tail = None ->
  scan _PEM_RE 0 (join (map item_text items) ++ tail)
  = (map (fun bg => match_of_block (fst bg)) items ++ scan _PEM_RE 0 tail)%list.
Proof.
  intros Hi Ht. induction Hi as [|[b g] items ([Hl Hb] & Hg & Hn) _ IH];
    [reflexivity|].
  cbn [fst snd] in *.
  cbn [map join fold_right app fst]. fold (join (map item_text items)).
  unfold item_text at 1. cbn [fst snd].
  rewrite !append_assoc.
  rewrite scan_match with (g := Some (label b)).
  - rewrite scan_no_begin by now apply no_begin_in_dash_free.
    now rewrite IH.
  - apply pem_block_nonempty.
  - apply match_here_pem_block; [exact Hl|exact Hb|].
    intros Htr. apply strip_prefix_LF_app; [now apply Hn|].
    intros _. now apply join_items_no_LF.
Qed.

Lemma Forall_wf_item_blocks (items : list (block * string)) :
  Forall wf_item items -> Forall wf_block (map fst items).
Proof.
  induction 1 as [|bg items (Hb & _) _ IH]; cbn [map]; constructor; assumption.
Qed.

Lemma finditer_items (g0 : string) (items : list (block * string)) (tail : string) :
  dash_free g0 = true -> Forall wf_item items ->
  strip_prefix LF tail = None ->
  finditer _PEM_RE ((g0 ++ join (map item_text items)) ++ tail)
  = (map match_of_block (map fst items) ++ finditer _PEM_RE tail)%list.
Proof.
  intros Hg Hi Ht. unfold finditer. rewrite append_assoc.
  rewrite scan_no_begin by now apply no_begin_in_dash_free.
  rewrite scan_items by assumption. now rewrite map_map.
Qed.

Lemma parse_items (g0 : string) (items : list (block * string)) (n : nat) :
  dash_free g0 = true -> Forall wf_item items ->
  exists objs,
    mapM make (map match_of_block (map fst items)) n = inr (objs, n + length items)
    /\ parse (g0 ++ join (map item_text items)) n = inr (objs, n + length items)
    /\ map __str__ objs = map (fun bg => block_text (fst bg)) items
    /\ map (fun o => Some (__class__ o)) objs
       = map (fun bg => variant_of_label (label (fst bg))) items.
Proof.
  intros Hg Hi.
  destruct (mapM_blocks _ (Forall_wf_item_blocks _ Hi) n) as (objs & Hm & Hs & Hc).
  rewrite !map_map, ?length_map in *.
  exists objs. split; [exact Hm|]. split; [|split; assumption].
  rewrite parse_unfold.
  rewrite <- (append_nil_r (g0 ++ join (map item_text items))).
  rewrite finditer_items by (assumption || reflexivity).
  change (finditer _PEM_RE "") with (@nil re_match).
  rewrite app_nil_r, map_map. exact Hm.
Qed.

(** X7: well-formed blocks with hyphen-free text before, between and after
    them (a block that lacks its final line feed not being followed by
    one) parse to one object per block, in order, each with the text of
    its block and the class of its label; the text around the blocks
    yields nothing. *)
Theorem parse_blocks_between_text
        (g0 : string) (items : list (block * string)) (n : nat) :
  dash_free g0 = true -> Forall wf_item items ->
  exists objs,
    parse (g0 ++ join (map item_text items)) n = inr (objs, n + length items)
    /\ map __str__ objs = map (fun bg => block_text (fst bg)) items
    /\ map (fun o => Some (__class__ o)) objs
       = map (fun bg => variant_of_label (label (fst bg))) items.
Proof.
  intros Hg Hi. destruct (parse_items g0 items n Hg Hi) as (objs & _ & H).
  now exists objs.
Qed.

Lemma parse_blocks_between_text_witness :
  let items := [ (Block "RSA PRIVATE KEY" "MIIB" true, LF ++ "Certificate chain" ++ LF);
                 (Block "CERTIFICATE" "MIIC" false, " # end of file") ] in
  exists objs,
    parse ("Bag Attributes" ++ LF ++ join (map item_text items)) 0
      = inr (objs, 0 + 2)
    /\ map __str__ objs = map (fun bg => block_text (fst bg)) items
    /\ map (fun o => Some (__class__ o)) objs
       = map (fun bg => variant_of_label (label (fst bg))) items.
Proof.
  intros items.
  apply (parse_blocks_between_text ("Bag Attributes" ++ LF) items 0).
  - reflexivity.
  - repeat apply Forall_cons; try apply Forall_nil;
      (split; [split|split]); try reflexivity; try discriminate.
    + right; left; reflexivity.
    + left; reflexivity.
Defined.

(** ** Putting texts end to end *)

Lemma mapM_app {A B} (f : A -> Py B) (l1 l2 : list A) (n : nat) :
  mapM f (l1 ++ l2)%list n
  = match mapM f l1 n with
    | inl e => inl e
    | inr (a, n1) =>
        match mapM f l2 n1 with
        | inl e => inl e
        | inr (b, n2) => inr ((a ++ b)%list, n2)
        end
    end.
Proof.
  revert n. induction l1 as [|x l1 IH]; intros n; cbn [app mapM].
  - unfold ret. now destruct (mapM f l2 n) as [e|[b n2]].
  - unfold bind, ret. destruct (f x n) as [e|[y n0]]; [reflexivity|].
    rewrite IH.
    destruct (mapM f l1 n0) as [e|[a n1]]; [reflexivity|].
    now destruct (mapM f l2 n1) as [e|[b n2]].
Qed.

(** X8: parsing two texts put end to end gives the objects of the first
    followed by the objects of the second, when the first is made of
    well-formed blocks with hyphen-free text around them and the second,
    whatever it holds, does not start with a line feed; the second is
    parsed with the identities left free by the first. *)
Theorem parse_app
        (g0 : string) (items : list (block * string)) (s2 : string) (n : nat) :
  dash_free g0 = true -> Forall wf_item items ->
  strip_prefix LF s2 = None ->
  exists objs1 objs2 n2,
    parse (g0 ++ join (map item_text items)) n = inr (objs1, n + length items)
    /\ parse s2 (n + length items) = inr (objs2, n2)
    /\ parse ((g0 ++ join (map item_text items)) ++ s2) n
       = inr ((objs1 ++ objs2)%list, n2).
Proof.
  intros Hg Hi Hs2.
  destruct (parse_items g0 items n Hg Hi) as (objs1 & Hm & H1 & _).
  destruct (mapM_make_ok _ (finditer_block_match s2) (n + length items))
    as (objs2 & H2 & _).
  exists objs1, objs2, (n + length items + length (finditer _PEM_RE s2)).
  split; [exact H1|]. split; [rewrite parse_unfold; exact H2|].
  rewrite parse_unfold, finditer_items by assumption.
  rewrite mapM_app, Hm, H2. reflexivity.
Qed.

Lemma parse_app_witness :
  let key := Block "RSA PRIVATE KEY" "MIIB" true in
  let rest := pem_block LF "CERTIFICATE" "MIIC" true ++ "-----BEGIN CERTIFICATE-----" in
  exists objs1 objs2 n2,
    parse ("" ++ join (map item_text [(key, "")])) 0 = inr (objs1, 0 + 1)
    /\ parse rest (0 + 1) = inr (objs2, n2)
    /\ parse (("" ++ join (map item_text [(key, "")])) ++ rest) 0
       = inr ((objs1 ++ objs2)%list, n2).
Proof.
  intros key rest.
  apply (parse_app "" [(key, "")] rest 0); try reflexivity.
  apply Forall_cons; [|apply Forall_nil].
  split; [split|split]; try reflexivity; try discriminate.
  right; left; reflexivity.
Defined.

(** ** The label of the END line *)

Lemma lazy_all_nil (s : string) :
  forall F : string -> string -> list thread,
  (forall m1 m2, s = m1 ++ m2 -> m1 <> "" -> F m1 m2 = []) ->
  flat_map (fun ms => F (fst ms) (snd ms)) (any_plus_lazy s) = [].
Proof.
  induction s as [|c s IH]; intros F HF; [reflexivity|].
  cbn [any_plus_lazy flat_map fst snd].
  rewrite (HF (String c "") s) by (reflexivity || discriminate).
  rewrite flat_map_map. cbn [app fst snd].
  apply (IH (fun m r => F (String c m) r)).
  intros m1 m2 -> _. apply HF; [reflexivity|discriminate].
Qed.

Lemma append_eq_append (a b c d : string) :
  a ++ b = c ++ d ->
  (exists e, c = a ++ e /\ b = e ++ d)
  \/ (exists e, e <> "" /\ a = c ++ e /\ d = e ++ b).
Proof.
  revert c. induction a as [|x a IH]; intros c H.
  - left. exists c. now cbn in *.
  - destruct c as [|y c].
    + right. exists (String x a). cbn in *. repeat split; [discriminate|now symmetry].
    + cbn [append] in H. injection H as <- H.
      destruct (IH _ H) as [(e & -> & ->)|(e & He & -> & ->)].
      * left. now exists e.
      * right. now exists e.
Qed.

Lemma no_end_in_app (p q r : string) :
  no_end_in p (q ++ r) -> no_end_in q r -> no_end_in (p ++ q) r.
Proof.
  induction p as [|c p IH]; cbn [no_end_in append]; [auto|].
  intros [H Hp] Hq. rewrite append_assoc. auto.
Qed.

Lemma no_end_in_suffix (p r : string) :
  no_end_in p r ->
  forall e m, p = e ++ m -> m <> "" ->
  has_prefix (LF ++ "-----END ") (m ++ r) = false.
Proof.
  induction p as [|c p IH]; intros H e m E Hm.
  - symmetry in E. destruct e; [cbn in E; congruence|discriminate].
  - destruct H as [H Hp]. destruct e as [|x e].
    + cbn in E. subst m. exact H.
    + cbn [append] in E. injection E as _ E. exact (IH Hp e m E Hm).
Qed.

Lemma no_end_in_dash_free (p r : string) :
  dash_free p = true ->
  has_prefix "-----END " r = false ->
  no_end_in p r.
Proof.
  unfold dash_free, is_dash. intros Hp Hr.
  induction p as [|c p IH]; cbn [all_chars no_end_in] in *; [auto|].
  apply andb_prop in Hp as [Hc Hp]. split; [|auto].
  unfold has_prefix. cbn [LF append strip_prefix].
  destruct (Ascii.eqb _ c); [|reflexivity].
  destruct p as [|c' p]; [exact Hr|].
  cbn [all_chars] in Hp. apply andb_prop in Hp as [Hc' _].
  cbn -[Ascii.eqb]. rewrite Ascii.eqb_sym. now destruct (Ascii.eqb c' "-").
Qed.

(** With another label in the END line, the END line is not accepted. *)
Lemma run_end_line_mismatch (l1 l2 w : string) :
  dash_free l1 = true -> dash_free l2 = true -> l1 <> l2 ->
  run end_line (Some l1) (LF ++ "-----END " ++ l2 ++ "-----" ++ w) = [].
Proof.
  intros H1 H2 Hne. unfold end_line.
  change (LF ++ "-----END " ++ ?x) with ((LF ++ "-----END ") ++ x).
  rewrite run_Seq_Lit, run_Seq_Backref_gen.
  destruct (strip_prefix l1 (l2 ++ "-----" ++ w)) as [s|] eqn:E2; [|reflexivity].
  rewrite run_Seq_Lit_gen.
  destruct (strip_prefix "-----" s) as [s0|] eqn:E3; [exfalso|reflexivity].
  apply strip_prefix_Some in E2, E3. subst s.
  apply Hne, (strip_prefix_labels l1 l2 "" ("----" ++ w)); [exact H1|exact H2|].
  assert (E : l2 ++ String "-" ("----" ++ w) = (l1 ++ String "-" "") ++ "----" ++ s0)
    by (rewrite append_assoc; exact E2).
  rewrite E, strip_prefix_app. discriminate.
Qed.

Lemma no_begin_in_mixed_tail (u1 u2 b : string) (tr : bool) :
  dash_free u1 = true -> dash_free u2 = true -> dash_free b = true ->
  no_begin_in ("----BEGIN " ++ u1 ++ "-----" ++ LF ++ b ++ LF
                 ++ "-----END " ++ u2 ++ "-----" ++ (if tr then LF else "")) "".
Proof.
  intros H1 H2 Hb.
  apply no_begin_in_app;
    [cbn [no_begin_in append]; repeat split; reflexivity|].
  apply no_begin_in_app; [now apply no_begin_in_dash_free|].
  rewrite <- (append_assoc "-----" LF). apply no_begin_in_app;
    [cbn [no_begin_in append LF]; repeat split; reflexivity|].
  apply no_begin_in_app; [now apply no_begin_in_dash_free|].
  rewrite <- (append_assoc LF "-----END "). apply no_begin_in_app;
    [cbn [no_begin_in append LF]; repeat split; reflexivity|].
  apply no_begin_in_app; [now apply no_begin_in_dash_free|].
  destruct tr; cbn [no_begin_in append LF]; repeat split; reflexivity.
Qed.

Lemma no_end_in_mixed_tail (l2 : string) (tr : bool) :
  dash_free l2 = true ->
  no_end_in ("-----END " ++ l2 ++ "-----" ++ (if tr then LF else "")) "".
Proof.
  intros H2.
  apply no_end_in_app;
    [cbn [no_end_in append]; repeat split; reflexivity|].
  apply no_end_in_app.
  - apply no_end_in_dash_free; [exact H2|]. now destruct tr.
  - destruct tr; cbn [no_end_in append LF]; repeat split; reflexivity.
Qed.

Lemma match_here_mixed_block (l1 l2 b : string) (tr : bool) :
  registered l1 -> wf_label l2 = true -> l1 <> l2 -> wf_body b = true ->
  match_here _PEM_RE (mixed_block l1 l2 b tr) = None.
Proof.
  intros Hl1 Hl2 Hne Hb. unfold match_here, mixed_block.
  rewrite _PEM_RE_unfold, run_Seq_Lit, run_Seq_labels by exact Hl1.
  change ("-----" ++ LF ++ ?x) with (("-----" ++ LF) ++ x).
  rewrite run_Seq_Lit. cbn [run]. rewrite flat_map_map.
  cbn [taken rest captured].
  rewrite (lazy_all_nil _ (fun m r => map (extend m) (run end_line (Some l1) r)));
    [reflexivity|].
  intros m1 m2 E Hm1.
  apply append_eq_append in E as [(e & -> & Et)|(e & He & Hbe & ->)].
  - destruct e as [|x e].
    + change ("" ++ m2) with m2 in Et. subst m2.
      rewrite run_end_line_mismatch;
        [reflexivity|now apply registered_dash_free|exact Hl2|exact Hne].
    + cbn [append LF] in Et. injection Et as _ Et.
      unfold end_line. rewrite run_Seq_Lit_None; [reflexivity|].
      destruct m2 as [|y m2]; [reflexivity|].
      pose proof (no_end_in_suffix _ _ (no_end_in_mixed_tail l2 tr Hl2)
                    e (String y m2) Et) as H.
      unfold has_prefix in H. rewrite append_nil_r in H.
      destruct (strip_prefix _ (String y m2)); [|reflexivity].
      discriminate H. discriminate.
  - rewrite run_end_line_body; [reflexivity|exact He|].
    apply dash_free_suffix with (m1 := m1). rewrite <- Hbe.
    now apply wf_body_dash_free.
Qed.

(** X6: the label of the END line has to be the one of the BEGIN line.  A
    block that begins with a registered label and ends with another label
    yields no object. *)
Theorem parse_mixed_block (l1 l2 b : string) (tr : bool) (n : nat) :
  registered l1 -> wf_label l2 = true -> l1 <> l2 -> wf_body b = true ->
  parse (mixed_block l1 l2 b tr) n = inr ([], n).
Proof.
  intros Hl1 Hl2 Hne Hb.
  pose proof (match_here_mixed_block l1 l2 b tr Hl1 Hl2 Hne Hb) as M.
  rewrite parse_unfold. unfold finditer.
  change (mixed_block l1 l2 b tr)
    with (String "-" ("----BEGIN " ++ l1 ++ "-----" ++ LF ++ b ++ LF
                        ++ "-----END " ++ l2 ++ "-----" ++ (if tr then LF else "")))
    in *.
  rewrite scan_no_match by exact M.
  rewrite <- (append_nil_r ("----BEGIN " ++ _)).
  rewrite scan_no_begin; [reflexivity|].
  apply no_begin_in_mixed_tail;
    [now apply registered_dash_free|exact Hl2|now apply wf_body_dash_free].
Qed.

Lemma parse_mixed_block_witness :
  parse (mixed_block "CERTIFICATE" "RSA PRIVATE KEY" "MIIC" true) 0 = inr ([], 0).
Proof.
  apply (parse_mixed_block "CERTIFICATE" "RSA PRIVATE KEY" "MIIC" true 0);
    try reflexivity.
  - left; reflexivity.
  - discriminate.
Defined.

(** ** [__repr__] tells objects apart *)

Lemma append_inv_head (p x y : string) : p ++ x = p ++ y -> x = y.
Proof.
  induction p as [|c p IH]; cbn [append]; [auto|].
  intros H. injection H as H. auto.
Qed.

Lemma length_append (a b : string) :
  String.length (a ++ b) = String.length a + String.length b.
Proof. induction a as [|x a IH]; cbn; [reflexivity | now rewrite IH]. Qed.

Lemma append_inv_tail (a b c : string) : a ++ c = b ++ c -> a = b.
Proof.
  revert b. induction a as [|x a IH]; intros [|y b] H; cbn [append] in H.
  - reflexivity.
  - exfalso. apply (f_equal String.length) in H.
    cbn [String.length] in H. rewrite length_append in H. lia.
  - exfalso. apply (f_equal String.length) in H.
    cbn [String.length] in H. rewrite length_append in H. lia.
  - injection H as <- H. f_equal. now apply IH.
Qed.

Lemma __repr___text (o : object) :
  __repr__ o
  = inr ("<" ++ __name__ (__class__ o) ++ "(pem_str="
           ++ Str.repr (pem_str o) ++ ")>").
Proof. reflexivity. Qed.

(** X9: [repr] tells objects apart by class and text: two objects with the
    same [repr] have the same class and the same [pem_str]. *)
Theorem repr_injective (o1 o2 : object) :
  __repr__ o1 = __repr__ o2 ->
  __class__ o1 = __class__ o2 /\ pem_str o1 = pem_str o2.
Proof.
  rewrite !__repr___text. intros [= H].
  assert (Hc : __class__ o1 = __class__ o2)
    by (destruct (__class__ o1), (__class__ o2);
        reflexivity || (cbn in H; discriminate H)).
  split; [exact Hc|].
  rewrite Hc in H. apply append_inv_head in H.
  change ("(pem_str=" ++ Str.repr (pem_str o1) ++ ")>"
          = "(pem_str=" ++ Str.repr (pem_str o2) ++ ")>") in H.
  apply append_inv_head, append_inv_tail in H.
  rewrite <- (unrepr_repr (pem_str o1)), H. apply unrepr_repr.
Qed.

Lemma repr_injective_witness :
  Certificate = Certificate /\ "MIIC" = "MIIC".
Proof.
  exact (repr_injective (Object 0 Certificate "MIIC") (Object 7 Certificate "MIIC")
                        eq_refl).
Defined.

(** ** Blocks cut short *)

Lemma run_end_line_no_prefix (g : option string) (x : string) :
  has_prefix (LF ++ "-----END ") x = false -> run end_line g x = [].
Proof.
  unfold has_prefix. intros H. unfold end_line. apply run_Seq_Lit_None.
  now destruct (strip_prefix _ x).
Qed.

Lemma no_end_line_in_weaken (g : option string) (p r : string) :
  no_end_in p r -> no_end_line_in g p r.
Proof.
  induction p as [|c p IH]; cbn [no_end_in no_end_line_in]; [auto|].
  intros [H Hp]. split; [now apply run_end_line_no_prefix|auto].
Qed.

Lemma no_end_line_in_app (g : option string) (p q r : string) :
  no_end_line_in g p (q ++ r) -> no_end_line_in g q r ->
  no_end_line_in g (p ++ q) r.
Proof.
  induction p as [|c p IH]; cbn [no_end_line_in append]; [auto|].
  intros [H Hp] Hq. rewrite append_assoc. auto.
Qed.

Lemma no_end_line_in_suffix (g : option string) (p r : string) :
  no_end_line_in g p r ->
  forall e m, p = e ++ m -> m <> "" -> run end_line g (m ++ r) = [].
Proof.
  induction p as [|c p IH]; intros H e m E Hm.
  - symmetry in E. destruct e; [cbn in E; congruence|discriminate].
  - destruct H as [H Hp]. destruct e as [|x e].
    + cbn in E. subst m. exact H.
    + cbn [append] in E. injection E as _ E. exact (IH Hp e m E Hm).
Qed.

(** No thread when the END line is accepted nowhere in what follows the
    BEGIN line. *)
Lemma match_here_no_end_line (l s3 : string) :
  registered l ->
  no_end_line_in (Some l) s3 "" ->
  match_here _PEM_RE ("-----BEGIN " ++ l ++ "-----" ++ LF ++ s3) = None.
Proof.
  intros Hl Hs. unfold match_here.
  rewrite _PEM_RE_unfold, run_Seq_Lit, run_Seq_labels by exact Hl.
  change ("-----" ++ LF ++ ?x) with (("-----" ++ LF) ++ x).
  rewrite run_Seq_Lit. cbn [run]. rewrite flat_map_map.
  cbn [taken rest captured].
  rewrite (lazy_all_nil _ (fun m r => map (extend m) (run end_line (Some l) r)));
    [reflexivity|].
  intros m1 m2 E _. destruct m2 as [|y m2]; [reflexivity|].
  pose proof (no_end_line_in_suffix _ _ _ Hs m1 (String y m2) E) as H.
  rewrite append_nil_r in H. rewrite H; [reflexivity|discriminate].
Qed.

Lemma no_begin_in_truncated_tail (l b r : string) :
  dash_free l = true -> dash_free b = true ->
  no_begin_in ("----BEGIN " ++ l ++ "-----" ++ LF ++ b) r.
Proof.
  intros Hl Hb.
  apply no_begin_in_app;
    [cbn [no_begin_in append]; repeat split; reflexivity|].
  apply no_begin_in_app; [now apply no_begin_in_dash_free|].
  rewrite <- (append_assoc "-----" LF). apply no_begin_in_app;
    [cbn [no_begin_in append LF]; repeat split; reflexivity|].
  now apply no_begin_in_dash_free.
Qed.

(** X14: a block cut short yields nothing and raises nothing: a BEGIN line
    with a registered label followed by a hyphen-free body, with no END
    line, parses to the empty list. *)
Theorem parse_truncated_block (l b : string) (n : nat) :
  registered l -> dash_free b = true ->
  parse (truncated_block l b) n = inr ([], n).
Proof.
  intros Hl Hb. rewrite parse_unfold. unfold finditer.
  assert (M : match_here _PEM_RE (truncated_block l b) = None).
  { apply match_here_no_end_line; [exact Hl|].
    apply no_end_line_in_weaken, no_end_in_dash_free; [exact Hb|reflexivity]. }
  change (truncated_block l b)
    with (String "-" ("----BEGIN " ++ l ++ "-----" ++ LF ++ b)) in *.
  rewrite scan_no_match by exact M.
  rewrite <- (append_nil_r ("----BEGIN " ++ _)).
  rewrite scan_no_begin; [reflexivity|].
  apply no_begin_in_truncated_tail; [now apply registered_dash_free|exact Hb].
Qed.

Lemma parse_truncated_block_witness :
  parse (truncated_block "CERTIFICATE" ("MIIC" ++ LF ++ "AQAB")) 0 = inr ([], 0).
Proof.
  apply (parse_truncated_block "CERTIFICATE" ("MIIC" ++ LF ++ "AQAB") 0).
  - left; reflexivity.
  - reflexivity.
Defined.

Lemma has_prefix_end_after_LF (c : ascii) (x : string) :
  is_dash c = false ->
  has_prefix (LF ++ "-----END ") (String (ascii_of_nat 10) (String c x)) = false.
Proof.
  unfold is_dash. rewrite Ascii.eqb_sym. intros H.
  unfold has_prefix. cbn [LF append strip_prefix].
  now rewrite Ascii.eqb_refl, H.
Qed.

Lemma no_end_in_begin_stretch (b1 l2 b2 r : string) :
  dash_free b1 = true -> dash_free l2 = true -> wf_body b2 = true ->
  has_prefix "-----END " r = false ->
  no_end_in (b1 ++ LF ++ "-----BEGIN " ++ l2 ++ "-----" ++ LF ++ b2) r.
Proof.
  intros H1 H2 Hb2 Hr.
  destruct (wf_body_inv _ Hb2) as (c & b & -> & Hc & Hb).
  apply no_end_in_app; [now apply no_end_in_dash_free|].
  rewrite <- (append_assoc LF "-----BEGIN "). apply no_end_in_app;
    [cbn [no_end_in append LF]; repeat split; reflexivity|].
  apply no_end_in_app; [now apply no_end_in_dash_free|].
  rewrite <- (append_assoc "-----" LF). apply no_end_in_app.
  - cbn [no_end_in append LF]. repeat split; try reflexivity.
    now apply has_prefix_end_after_LF.
  - apply no_end_in_dash_free; [|exact Hr].
    unfold dash_free. cbn [all_chars]. now rewrite Hc.
Qed.

(** X15: a block cut short does not hide a block of another label that
    follows it.  After a BEGIN line of [l1] with a hyphen-free body and no
    END line, a well-formed block with another registered label is
    extracted as usual, and it is the only object returned. *)
Theorem parse_after_truncated
        (l1 b1 l2 b2 : string) (tr : bool) (n : nat) :
  registered l1 -> registered l2 -> l1 <> l2 ->
  dash_free b1 = true -> wf_body b2 = true ->
  exists o,
    parse (truncated_block l1 (b1 ++ LF ++ pem_block LF l2 b2 tr)) n
    = inr ([o], S n)
    /\ __str__ o = pem_block LF l2 b2 tr
    /\ variant_of_label l2 = Some (__class__ o).
Proof.
  intros Hl1 Hl2 Hne Hb1 Hb2.
  pose proof (registered_dash_free _ Hl1) as D1.
  pose proof (registered_dash_free _ Hl2) as D2.
  destruct (getitem_registered _ Hl2) as (cls & Hg & Hv).
  exists (Object n cls (pem_block LF l2 b2 tr)).
  split; [|split; [reflexivity|exact Hv]].
  assert (M : match_here _PEM_RE
                (truncated_block l1 (b1 ++ LF ++ pem_block LF l2 b2 tr)) = None).
  { apply match_here_no_end_line; [exact Hl1|].
    unfold pem_block.
    replace (b1 ++ LF ++ "-----BEGIN " ++ l2 ++ "-----" ++ LF ++ b2 ++ LF
               ++ "-----END " ++ l2 ++ "-----" ++ (if tr then LF else ""))
      with ((b1 ++ LF ++ "-----BEGIN " ++ l2 ++ "-----" ++ LF ++ b2)
              ++ LF ++ "-----END " ++ l2 ++ "-----" ++ (if tr then LF else ""))
      by (rewrite !append_assoc; cbn [append];
          repeat (rewrite !append_assoc; cbn [append]); reflexivity).
    apply no_end_line_in_app.
    - apply no_end_line_in_weaken, no_end_in_begin_stretch; try assumption.
      reflexivity.
    - change (LF ++ ?x) with (String (ascii_of_nat 10) x).
      split.
      + change (String (ascii_of_nat 10) ?x) with (LF ++ x).
        rewrite !append_assoc.
        apply run_end_line_mismatch; assumption.
      + apply no_end_line_in_weaken, no_end_in_mixed_tail. exact D2. }
  rewrite parse_unfold. unfold finditer.
  replace (truncated_block l1 (b1 ++ LF ++ pem_block LF l2 b2 tr))
    with (String "-" (("----BEGIN " ++ l1 ++ "-----" ++ LF ++ (b1 ++ LF))
                        ++ pem_block LF l2 b2 tr ++ "")) in *
    by (unfold truncated_block; rewrite append_nil_r, !append_assoc;
        reflexivity).
  rewrite scan_no_match by exact M.
  rewrite scan_no_begin.
  - rewrite scan_match with (g := Some l2);
      [|apply pem_block_nonempty|now apply match_here_pem_block].
    cbn [scan]. change (match_here _PEM_RE "") with (@None re_match).
    cbn [mapM]. unfold bind, make, bind. cbn [group0 group1].
    rewrite Hg. reflexivity.
  - apply no_begin_in_truncated_tail; [exact D1|].
    unfold dash_free in *. rewrite all_chars_app, Hb1. reflexivity.
Qed.

Lemma parse_after_truncated_witness :
  exists o,
    parse (truncated_block "CERTIFICATE"
             ("MIIC" ++ LF ++ pem_block LF "RSA PRIVATE KEY" "MIIB" true)) 0
    = inr ([o], 1)
    /\ __str__ o = pem_block LF "RSA PRIVATE KEY" "MIIB" true
    /\ variant_of_label "RSA PRIVATE KEY" = Some (__class__ o).
Proof.
  apply (parse_after_truncated "CERTIFICATE" "MIIC" "RSA PRIVATE KEY" "MIIB" true 0);
    try reflexivity.
  - left; reflexivity.
  - right; left; reflexivity.
  - discriminate.
Defined.

(** X16: a block cut short takes the next block of the same label with it.
    After a BEGIN line of [l] with a hyphen-free body and no END line, a
    well-formed block with the same label does not come out on its own:
    [parse] returns a single object whose text is the whole input, from
    the first BEGIN line to the END line. *)
Theorem parse_truncated_same_label
        (l b1 b2 : string) (tr : bool) (n : nat) :
  registered l -> dash_free b1 = true -> wf_body b2 = true ->
  exists o,
    parse (truncated_block l (b1 ++ LF ++ pem_block LF l b2 tr)) n
    = inr ([o], S n)
    /\ __str__ o = truncated_block l (b1 ++ LF ++ pem_block LF l b2 tr)
    /\ variant_of_label l = Some (__class__ o).
Proof.
  intros Hl Hb1 Hb2.
  pose proof (registered_dash_free _ Hl) as D.
  destruct (getitem_registered _ Hl) as (cls & Hg & Hv).
  set (body := b1 ++ LF ++ "-----BEGIN " ++ l ++ "-----" ++ LF ++ b2).
  assert (E : truncated_block l (b1 ++ LF ++ pem_block LF l b2 tr)
              = pem_block LF l body tr)
    by (unfold truncated_block, pem_block, body; rewrite !append_assoc;
        reflexivity).
  rewrite E.
  exists (Object n cls (pem_block LF l body tr)).
  split; [|split; [reflexivity|exact Hv]].
  assert (Hne : body <> "")
    by (unfold body; destruct b1; discriminate).
  assert (M : match_here _PEM_RE (pem_block LF l body tr ++ "")
              = Some (ReMatch (pem_block LF l body tr) (Some l))).
  { apply match_here_intro; [exact Hl|exact Hne| |reflexivity].
    intros a c Hac _ Hc.
    apply (no_end_line_in_suffix (Some l) body
             (LF ++ "-----END " ++ l ++ "-----" ++ (if tr then LF else "") ++ ""))
      with (e := a); [|exact Hac|exact Hc].
    apply no_end_line_in_weaken, no_end_in_begin_stretch; try assumption.
    reflexivity. }
  rewrite parse_unfold. unfold finditer.
  rewrite <- (append_nil_r (pem_block LF l body tr)) at 1.
  rewrite (scan_match _ _ _ _ (pem_block_nonempty _ _ _ _) M).
  cbn [scan]. change (match_here _PEM_RE "") with (@None re_match).
  cbn [mapM]. unfold bind, make, bind. cbn [group0 group1].
  rewrite Hg. reflexivity.
Qed.

Lemma parse_truncated_same_label_witness :
  exists o,
    parse (truncated_block "CERTIFICATE"
             ("MIIC" ++ LF ++ pem_block LF "CERTIFICATE" "MIID" true)) 0
    = inr ([o], 1)
    /\ __str__ o = truncated_block "CERTIFICATE"
                     ("MIIC" ++ LF ++ pem_block LF "CERTIFICATE" "MIID" true)
    /\ variant_of_label "CERTIFICATE" = Some (__class__ o).
Proof.
  apply (parse_truncated_same_label "CERTIFICATE" "MIIC" "MIID" true 0);
    try reflexivity.
  left; reflexivity.
Defined.

(** ** The order of the registry keys in the pattern *)

(** X13: the order in which the dictionary hands out its keys has no
    effect.  Built with the labels of the registry in any order, the
    pattern finds the same matches, and [parse] builds the same objects. *)
Theorem parse_key_order (ks : list string) (s : string) (n : nat) :
  Permutation ks (keys _PEM_TO_CLASS) ->
  finditer (pem_pattern ks) s = finditer _PEM_RE s
  /\ mapM make (finditer (pem_pattern ks) s) n = parse s n.
Proof.
  intros H. rewrite parse_unfold, (key_order_irrelevant ks s H). now split.
Qed.

Lemma parse_key_order_witness :
  let ks := ["DH PARAMETERS"; "CERTIFICATE"; "RSA PRIVATE KEY"] in
  let s := pem_block LF "RSA PRIVATE KEY" "MIIB" true in
  finditer (pem_pattern ks) s = finditer _PEM_RE s
  /\ mapM make (finditer (pem_pattern ks) s) 0 = parse s 0.
Proof.
  intros ks s. apply (parse_key_order ks s 0).
  apply Permutation_sym.
  apply (perm_trans (l' := ["CERTIFICATE"; "DH PARAMETERS"; "RSA PRIVATE KEY"])).
  - apply perm_skip. apply perm_swap.
  - apply perm_swap.
Defined.

(** ** Parsing the same text twice *)

Lemma Forall2_made_classes (ms : list re_match) (o1 o2 : list object) :
  Forall2 made ms o1 -> Forall2 made ms o2 ->
  map __class__ o1 = map __class__ o2.
Proof.
  intros H1. revert o2. induction H1 as [|m a ms o1 [_ Ha] _ IH]; intros o2 H2.
  - inversion H2. reflexivity.
  - inversion H2 as [|m' b ms' o2' [_ Hb] H2']; subst.
    cbn [map]. f_equal; [congruence|now apply IH].
Qed.

(** X17: two calls on the same text return objects with the same texts and
    the same classes, position by position, and yet no object of the first
    call is equal for [==] to an object of the second: each call builds
    new instances. *)
Theorem parse_twice
        (s : string) (n : nat) (objs1 objs2 : list object) (n1 n2 : nat) :
  parse s n = inr (objs1, n1) -> parse s n1 = inr (objs2, n2) ->
  map __str__ objs1 = map __str__ objs2
  /\ map __class__ objs1 = map __class__ objs2
  /\ (forall a b, In a objs1 -> In b objs2 -> __eq__ a b = false).
Proof.
  intros H1 H2.
  destruct (parse_inv _ _ _ _ H1) as (_ & Hn1 & Hid1 & Hm1).
  destruct (parse_inv _ _ _ _ H2) as (_ & _ & Hid2 & Hm2).
  split; [|split].
  - now rewrite (Forall2_made_texts _ _ Hm1), (Forall2_made_texts _ _ Hm2).
  - exact (Forall2_made_classes _ _ _ Hm1 Hm2).
  - intros a b Ha Hb.
    apply (in_map id) in Ha. rewrite Hid1 in Ha. apply in_seq in Ha.
    apply (in_map id) in Hb. rewrite Hid2 in Hb. apply in_seq in Hb.
    unfold __eq__. apply Nat.eqb_neq. lia.
Qed.

Lemma parse_twice_witness :
  let cert := pem_block LF "CERTIFICATE" "MIIC" true in
  map __str__ [Object 0 Certificate cert] = map __str__ [Object 1 Certificate cert]
  /\ map __class__ [Object 0 Certificate cert]
     = map __class__ [Object 1 Certificate cert]
  /\ (forall a b,
        In a [Object 0 Certificate cert] -> In b [Object 1 Certificate cert] ->
        __eq__ a b = false).
Proof.
  intros cert.
  exact (parse_twice cert 0 [Object 0 Certificate cert] [Object 1 Certificate cert]
                     1 2 eq_refl eq_refl).
Defined.

Lemma parse_finds_block_witness :
  exists o objs n',
    parse ("junk" ++ "-----BEGIN CERTIFICATE-----" ++ LF ++ "MI-IC" ++ LF
             ++ "-----END CERTIFICATE-----" ++ "junk") 0
    = inr (o :: objs, n').
Proof.
  apply (parse_finds_block
           ("junk" ++ "-----BEGIN CERTIFICATE-----" ++ LF ++ "MI-IC" ++ LF
              ++ "-----END CERTIFICATE-----" ++ "junk") 0).
  exists "junk", "CERTIFICATE", "MI-IC", "junk".
  split; [left; reflexivity|]. split; [discriminate|reflexivity].
Defined.
